(** * peas.tasks.targetweights: the target-weights task

    A shallow embedding of [src/peas/tasks/targetweights.py] and the
    properties of its constructor, [evaluate] and [solve].

    Numbers.  The program computes on IEEE doubles.  Every finite double
    is a rational number, so arrays hold values of [Q] and the arithmetic
    ([+], [-], [*], [/], [abs], comparisons, [np.clip]) is the exact one:
    rounding, overflow, infinities and NaN are outside the model.  The
    only operation that leaves the rationals is [2 ** x]; the [fitness]
    field therefore lives in [R], as [Rpower 2 x].

    Arrays.  A numpy array is its shape together with its C-contiguous
    (row-major) buffer, so [reshape] changes the shape and keeps the buffer.

    Effects.  [__init__] assigns attributes of [self] one after the other
    and may raise in between, and it draws from numpy's global random
    state: it is written in state-passing style over the instance and the
    random state.  [evaluate] and [solve] only read [self].

    Inputs.  A substrate has at least one dimension.  The callables of
    the override rules are functions without effects.  A network is
    given by its connectivity matrix, the [cm] that [evaluate] reads.
    [visualize] writes an image file and is not modelled. *)

From Stdlib Require Import String Ascii DecimalString.
From Stdlib Require Import ZArith QArith Qabs Qminmax Qreals Reals.
From Stdlib Require Import Lia Psatz Bool Arith List.
Import ListNotations.

Open Scope Q_scope.

(** ** Exceptions and results *)

(** The exceptions these functions can raise.  [Exception] is Python's
    base class, raised by the two [raise Exception(...)] statements with
    its message; the other three are raised by the interpreter or by
    numpy: indexing out of bounds (also a boolean mask of the wrong
    size), reading a local variable that was never assigned, reading an
    attribute that was never set. *)
Inductive exn : Type :=
| Exception (msg : string)
| IndexError
| UnboundLocalError (name : string)
| AttributeError (name : string).

Inductive result (A : Type) : Type :=
| Ok (a : A)
| Raise (e : exn).

Arguments Ok {A} a.
Arguments Raise {A} e.

Definition bind {A B : Type} (r : result A) (k : A -> result B) : result B :=
  match r with
  | Ok a => k a
  | Raise e => Raise e
  end.

Notation "x <- r ;; k" := (bind r (fun x => k))
  (at level 61, r at next level, right associativity).

(** ** Arithmetic on arrays *)

Definition Qltb (x y : Q) : bool := negb (Qle_bool y x).

(** [a.sum()].  A double has one representation; the sums, differences
    and quotients below keep their rational in lowest terms ([Qred]), which
    changes no value and lets the definitions be evaluated. *)
Definition Qsum (l : list Q) : Q :=
  fold_right (fun v acc => Qred (v + acc)) 0 l.

Definition Qlen (l : list Q) : Q := inject_Z (Z.of_nat (length l)).

(** [a.mean()] *)
Definition mean (l : list Q) : Q := Qsum l / Qlen l.

(** Elementwise [a - b] of two buffers. *)
Definition sub (a b : list Q) : list Q :=
  map (fun p => Qred (fst p - snd p)) (combine a b).

(** [np.dot(u, v)] of two vectors. *)
Definition dot (a b : list Q) : Q :=
  Qsum (map (fun p => fst p * snd p) (combine a b)).

(** [np.dot(a, x)] of a matrix, given by its rows, and a vector. *)
Definition matvec (a : list (list Q)) (x : list Q) : list Q :=
  map (fun r => dot r x) a.

(** [np.product(shape)] *)
Definition product (s : list nat) : nat := fold_right Nat.mul 1%nat s.

(** [np.clip(v, lo, hi)], which is [minimum(maximum(v, lo), hi)]. *)
Definition clip (lo hi v : Q) : Q := Qmin (Qmax v lo) hi.

Record ndarray : Type := mk_ndarray { shape : list nat; data : list Q }.

(** An array as numpy builds them: the buffer has one cell per index. *)
Definition wf_ndarray (a : ndarray) : Prop :=
  length (data a) = product (shape a).

(** ** The coordinate grid *)

(** Point [i] of [slice(-1, 1, s*1j)] under [np.mgrid]: the complex step
    asks for [s] points; [mgrid] takes the spacing [(stop - start)/(s-1)],
    except that it leaves the spacing 1 when [s] is 1, and the point is
    [i * spacing + start]. *)
Definition spacing (s : nat) : Q :=
  if Nat.eqb s 1 then 1 else (1 - (-1)) / inject_Z (Z.of_nat (s - 1)).

Definition grid_point (s i : nat) : Q :=
  inject_Z (Z.of_nat i) * spacing s + (-1).

(** [np.mgrid[[slice(-1, 1, s*1j) for s in dims]]]: one array per axis,
    each of shape [dims], given by its row-major buffer.  The array of
    axis [k] holds at every index the [k]-th coordinate of that index. *)
Fixpoint mgrid (dims : list nat) : list (list Q) :=
  match dims with
  | [] => []
  | s :: rest =>
      flat_map (fun i => repeat (grid_point s i) (product rest)) (seq 0 s)
      :: map (fun c => concat (repeat c s)) (mgrid rest)
  end.

(** [coords.transpose(range(1, n+1) + [0]).reshape(-1, n)]: row [f] is
    the coordinate vector of the index whose row-major position is [f]. *)
Definition transpose_reshape (size : nat) (coords : list (list Q))
  : list (list Q) :=
  map (fun f => map (fun c => nth f c 0) coords) (seq 0 size).

(** ** numpy's global random state *)

(** The global generator is a stream of draws and a position in it.
    [np.random.random(shape)] takes one draw per cell. *)
Record RandomState : Type := mk_random { stream : nat -> Q; pos : nat }.

Definition random (n : nat) (g : RandomState) : list Q * RandomState :=
  (map (fun i => stream g (pos g + i)%nat) (seq 0 n),
   mk_random (stream g) (pos g + n)).

(** [np.random.random] draws from the half-open interval [0, 1). *)
Definition unit_draws (g : RandomState) : Prop :=
  forall i, 0 <= stream g i /\ stream g i < 1.

(** ** Override rules *)

(** A rule is a pair [(where, what)].  A callable [where] maps the
    coordinate grid to a boolean mask; anything else selects every cell.
    A callable [what] maps the grid and the current tensor to an array of
    values; anything else is a number, broadcast.  Masks and value arrays
    are given by their buffers. *)
Inductive where_t : Type :=
| WhereCallable (f : list (list Q) -> list bool)
| WhereOther.

Inductive what_t : Type :=
| WhatCallable (f : list (list Q) -> ndarray -> list Q)
| WhatNumber (c : Q).

(** [cm[mask] = vals[mask]].  numpy refuses a boolean index whose size is
    not the size of the indexed array. *)
Fixpoint masked_assign (cm : list Q) (mask : list bool) (vals : list Q)
  : result (list Q) :=
  match cm, mask, vals with
  | [], [], [] => Ok []
  | c :: cm', m :: mask', v :: vals' =>
      r <- masked_assign cm' mask' vals' ;;
      Ok ((if m then v else c) :: r)
  | _, _, _ => Raise IndexError
  end.

Definition rule_mask (coords : list (list Q)) (cm : ndarray) (where_ : where_t)
  : list bool :=
  match where_ with
  | WhereCallable f => f coords
  | WhereOther => repeat true (product (shape cm))
  end.

Definition rule_vals (coords : list (list Q)) (cm : ndarray) (what : what_t)
  : list Q :=
  match what with
  | WhatCallable f => f coords cm
  | WhatNumber c => map (fun one => c * one) (repeat 1 (product (shape cm)))
  end.

(** One turn of the loop [for (where, what) in funcs]. *)
Definition apply_rule (coords : list (list Q)) (cm : ndarray)
  (rule : where_t * what_t) : result ndarray :=
  let mask := rule_mask coords cm (fst rule) in
  let vals := rule_vals coords cm (snd rule) in
  d <- masked_assign (data cm) mask vals ;;
  Ok (mk_ndarray (shape cm) d).

Fixpoint apply_rules (coords : list (list Q)) (cm : ndarray)
  (funcs : list (where_t * what_t)) : result ndarray :=
  match funcs with
  | [] => Ok cm
  | rule :: rest =>
      cm' <- apply_rule coords cm rule ;;
      apply_rules coords cm' rest
  end.

(** ** The instance and its constructor *)

(** The attributes of an instance; [None] is an attribute not set yet. *)
Record TargetWeightsTask : Type := mk_task {
  self_substrate_shape : option (list nat);
  self_max_weight : option Q;
  self_fitnessmeasure : option string;
  self_locs : option (list (list Q));
  self_target : option ndarray
}.

(** The instance as [__init__] receives it. *)
Definition fresh : TargetWeightsTask := mk_task None None None None None.

Definition getattr {A : Type} (name : string) (field : option A) : result A :=
  match field with
  | Some a => Ok a
  | None => Raise (AttributeError name)
  end.

(** The arguments of the constructor. *)
Record init_args : Type := mk_args {
  default_weight : Q;
  substrate_shape : list nat;
  noise : Q;
  max_weight : Q;
  funcs : list (where_t * what_t);
  fitnessmeasure : string
}.

(** The default values of the signature. *)
Definition default_args : init_args :=
  mk_args 0 [3%nat; 3%nat] 0 3 [] "absdiff".

Definition noise_message : string := "Noise value has to be between 0 and 1.".

(** [__init__]: the instance and the random state it leaves, and whether
    it returned or raised. *)
Definition __init__ (self : TargetWeightsTask) (a : init_args) (g : RandomState)
  : TargetWeightsTask * RandomState * result unit :=
  let self1 := mk_task (Some (substrate_shape a)) (Some (max_weight a))
                       (Some (fitnessmeasure a))
                       (self_locs self) (self_target self) in
  if negb (Qle_bool 0 (noise a) && Qle_bool (noise a) 1) then
    (self1, g, Raise (Exception noise_message))
  else
    let cm_shape := substrate_shape a ++ substrate_shape a in
    let coords := mgrid cm_shape in
    let self2 := mk_task (self_substrate_shape self1) (self_max_weight self1)
                         (self_fitnessmeasure self1)
                         (Some (transpose_reshape (product cm_shape) coords))
                         (self_target self1) in
    let cm := mk_ndarray cm_shape
                (map (fun one => one * default_weight a)
                     (repeat 1 (product cm_shape))) in
    match apply_rules coords cm (funcs a) with
    | Raise e => (self2, g, Raise e)
    | Ok cm1 =>
        let (draws1, g1) := random (product (shape cm1)) g in
        let mask := map (fun u => Qltb u (noise a)) draws1 in
        let (draws2, g2) := random (product (shape cm1)) g1 in
        let random_weights :=
          map (fun u => u * max_weight a * 2 - max_weight a) draws2 in
        match masked_assign (data cm1) mask random_weights with
        | Raise e => (self2, g2, Raise e)
        | Ok d =>
            let side := product (substrate_shape a) in
            let target := mk_ndarray [side; side] d in
            let clipped :=
              mk_ndarray (shape target)
                (map (clip (- max_weight a) (max_weight a)) (data target)) in
            (mk_task (self_substrate_shape self2) (self_max_weight self2)
                     (self_fitnessmeasure self2) (self_locs self2)
                     (Some clipped),
             g2, Ok tt)
        end
    end.

(** The call [TargetWeightsTask(...)]: a fresh instance is initialised
    and returned, unless [__init__] raises. *)
Definition new_task (a : init_args) (g : RandomState)
  : result TargetWeightsTask :=
  let '(self, _, r) := __init__ fresh a g in
  _ <- r ;; Ok self.

(** ** numpy.linalg.lstsq *)

(** [lstsq(a, b)] returns [(x, residuals, rank, s)] for an [M x N] matrix
    [a]: [x] minimises the Euclidean norm of [b - a x]; [residuals] is the
    one-element array holding the squared norm of [b - a x] when
    [rank = N] and [M > N], and is the empty array otherwise.  The library
    is not part of the repository; this is its contract in exact
    arithmetic.  The rank is found by elimination and [x] by solving the
    normal equations [(a^T a) x = a^T b]; that the rank is [N] exactly
    when the columns are independent, and that [x] then minimises the
    norm, is proved below ([rank_full_iff], [lstsq_contract]).  When the
    rank is below [N], where numpy returns the solution of least norm,
    [x] is the solution whose free unknowns are zero: [evaluate] raises
    before it reads [x] in that case.  numpy finds the rank from the
    singular values, up to rounding; the singular values [s], which
    [evaluate] drops, are left out. *)

(** The first row whose leading entry is not zero, and the other rows. *)
Fixpoint split_pivot (rows : list (list Q)) : option (list Q * list (list Q)) :=
  match rows with
  | [] => None
  | r :: rest =>
      if Qeq_bool (hd 0 r) 0 then
        match split_pivot rest with
        | Some (p, others) => Some (p, r :: others)
        | None => None
        end
      else Some (r, rest)
  end.

(** Row [r] less the multiple of the pivot row [p] that clears its
    leading entry, without that entry. *)
Definition eliminate (p r : list Q) : list Q :=
  tl (sub r (map (fun v => hd 0 r / hd 0 p * v) p)).

(** The rank of a matrix with [n] columns, given by its rows. *)
Fixpoint rank (n : nat) (rows : list (list Q)) : nat :=
  match n with
  | O => O
  | S n' =>
      match split_pivot rows with
      | None => rank n' (map (@tl Q) rows)
      | Some (p, others) => S (rank n' (map (eliminate p) others))
      end
  end.

(** The right-hand side of a row less its coefficients applied to [xs]. *)
Fixpoint back_substitute (r xs : list Q) : Q :=
  match xs, r with
  | [], _ => hd 0 r
  | x :: xs', c :: r' => back_substitute r' xs' - c * x
  | _ :: _, [] => 0
  end.

(** A solution of the system whose rows hold [n] coefficients followed by
    the right-hand side. *)
Fixpoint solve_system (n : nat) (rows : list (list Q)) : list Q :=
  match n with
  | O => []
  | S n' =>
      match split_pivot rows with
      | None => 0 :: solve_system n' (map (@tl Q) rows)
      | Some (p, others) =>
          let xs := solve_system n' (map (eliminate p) others) in
          Qred (back_substitute (tl p) xs / hd 0 p) :: xs
      end
  end.

Definition ncols (a : list (list Q)) : nat := length (hd [] a).

(** Column [j] of a matrix. *)
Definition column (a : list (list Q)) (j : nat) : list Q :=
  map (fun r => nth j r 0) a.

(** The rows [(a^T a)_j ++ [(a^T b)_j]] of the normal equations. *)
Definition normal_equations (a : list (list Q)) (b : list Q)
  : list (list Q) :=
  map (fun j =>
         map (fun k => dot (column a j) (column a k)) (seq 0 (ncols a))
         ++ [dot (column a j) b])
      (seq 0 (ncols a)).

Definition lstsq (a : list (list Q)) (b : list Q)
  : list Q * list Q * nat :=
  let N := ncols a in
  let M := length a in
  let x := solve_system N (normal_equations a b) in
  let rk := rank N a in
  let residuals :=
    if Nat.eqb rk N && Nat.ltb N M then
      [Qsum (map (fun v => v ^ 2) (sub b (matvec a x)))]
    else [] in
  (x, residuals, rk).

(** ** evaluate and solve *)

(** The dictionary that [evaluate] returns. *)
Record metrics : Type := mk_metrics {
  fitness : R;
  error : Q;
  diff : Q;
  diff_lsq : Q;
  correct : Q;
  err_nonlin : Q;
  diff_nonlin : Q;
  residue : Q
}.

Definition str_int (n : nat) : string :=
  NilEmpty.string_of_uint (Nat.to_uint n).

Fixpoint str_items (l : list nat) : string :=
  match l with
  | [] => ""
  | [n] => str_int n
  | n :: rest => str_int n ++ ", " ++ str_items rest
  end.

(** [str] of a tuple of integers: [()], [(4,)], [(4, 4)]. *)
Definition str_tuple (l : list nat) : string :=
  match l with
  | [n] => "(" ++ str_int n ++ ",)"
  | _ => "(" ++ str_items l ++ ")"
  end.

(** ["Network shape (%s) does not match target shape (%s)." % (s, t)] *)
Definition shape_message (s t : list nat) : string :=
  "Network shape (" ++ str_tuple s ++ ") does not match target shape ("
  ++ str_tuple t ++ ").".

Fixpoint shape_eqb (s t : list nat) : bool :=
  match s, t with
  | [], [] => true
  | a :: s', b :: t' => Nat.eqb a b && shape_eqb s' t'
  | _, _ => false
  end.

(** [res[0]] *)
Definition first_item (res : list Q) : result Q :=
  match res with
  | r :: _ => Ok r
  | [] => Raise IndexError
  end.

(** Reading a local variable that an [if]/[elif] may have left unset. *)
Definition read_local {A : Type} (name : string) (v : option A) : result A :=
  match v with
  | Some a => Ok a
  | None => Raise (UnboundLocalError name)
  end.

(** [evaluate(self, network)], on the connectivity matrix [cm] of the
    network. *)
Definition evaluate (self : TargetWeightsTask) (cm : ndarray)
  : result metrics :=
  target <- getattr "target" (self_target self) ;;
  if negb (shape_eqb (shape cm) (shape target)) then
    Raise (Exception (shape_message (shape cm) (shape target)))
  else
    let delta := sub (data cm) (data target) in
    let diffs := map Qabs delta in
    let err := Qsum (map (fun v => v ^ 2) delta) in
    locs <- getattr "locs" (self_locs self) ;;
    let '(x, res, _) := lstsq locs (data target) in
    res0 <- first_item res ;;
    let diffs_lsq :=
      map Qabs (sub (matvec locs x) (data target)) in
    let diff_nonlin := mean diffs_lsq - mean diffs in
    mw <- getattr "max_weight" (self_max_weight self) ;;
    let correct :=
      mean (map (fun d => if Qltb d (mw / 10) then 1 else 0) diffs) in
    let nonlinear := res0 - err in
    fm <- getattr "fitnessmeasure" (self_fitnessmeasure self) ;;
    let fitness_local :=
      if String.eqb fm "absdiff" then
        Some (Rpower 2 (Q2R (mean (map (fun d => 2 * mw - d) diffs))))
      else if String.eqb fm "sqerr" then
        Some (Q2R (1 / (1 + err)))
      else None in
    fitness <- read_local "fitness" fitness_local ;;
    Ok (mk_metrics fitness err (mean diffs) (mean diffs_lsq) correct
                   nonlinear diff_nonlin res0).

(** [solve(self, network)] *)
Definition solve (self : TargetWeightsTask) (cm : ndarray) : result bool :=
  m <- evaluate self cm ;;
  Ok (Qltb (8 # 10) (correct m)).

(** ** Inputs used in the examples *)

(** A random state whose draws are all 1/2. *)
Definition g_half : RandomState := mk_random (fun _ => 1 # 2) 0.

Definition full (side : nat) (v : Q) : ndarray :=
  mk_ndarray [side; side] (repeat v (side * side)).

(** Shape (2,2), default weight 1, no noise, maximal weight 3, no rule. *)
Definition args_2x2 : init_args :=
  mk_args 1 [2%nat; 2%nat] 0 3 [] "absdiff".

(** The defaults, with a noise of 2. *)
Definition args_noise_2 : init_args :=
  mk_args 0 [3%nat; 3%nat] 2 3 [] "absdiff".

(** A line of five nodes; 20 of the 25 weights of [almost_5] are those of
    the target, which is all zero. *)
Definition args_5 : init_args :=
  mk_args 0 [5%nat] 0 3 [] "absdiff".

Definition almost_5 : ndarray :=
  mk_ndarray [5%nat; 5%nat] (repeat 0 20 ++ repeat 1 5).

(** A random state whose draws go round 0, 1/4, 1/2, 3/4. *)
Definition g_cycle : RandomState :=
  mk_random (fun i => Z.of_nat (i mod 4) # 4) 0.

(** A line of two nodes, every weight set to 5 by one rule, noise 1/2. *)
Definition args_noisy : init_args :=
  mk_args 0 [2%nat] (1 # 2) 3 [(WhereOther, WhatNumber 5)] "absdiff".

(** A single node; and shape (2,2) with a fitness measure that the
    program does not know. *)
Definition args_1 : init_args := mk_args 0 [1%nat] 0 3 [] "absdiff".

Definition args_unknown_mode : init_args :=
  mk_args 1 [2%nat; 2%nat] 0 3 [] "mse".

(** A substrate of shape (1,3). *)
Definition args_1x3 : init_args :=
  mk_args 0 [1%nat; 3%nat] 0 3 [] "absdiff".

(** ** Names for the parts of the constructor *)

(** [cm_shape], the tensor [cm] before the rules, and the location table. *)
Definition cm_shape (a : init_args) : list nat :=
  substrate_shape a ++ substrate_shape a.

Definition initial_cm (a : init_args) : ndarray :=
  mk_ndarray (cm_shape a)
    (map (fun one => one * default_weight a)
         (repeat 1 (product (cm_shape a)))).

Definition built_locs (a : init_args) : list (list Q) :=
  transpose_reshape (product (cm_shape a)) (mgrid (cm_shape a)).

(** The tensor after the noise step, from the tensor [cm1] after the
    rules. *)
Definition add_noise (a : init_args) (g : RandomState) (cm1 : ndarray)
  : result (list Q) :=
  let n := product (shape cm1) in
  masked_assign (data cm1)
    (map (fun u => Qltb u (noise a)) (fst (random n g)))
    (map (fun u => u * max_weight a * 2 - max_weight a)
         (fst (random n (snd (random n g))))).

(** The instance that a call which returns has built, from the tensor
    [d] after the noise step. *)
Definition built_task (a : init_args) (d : list Q) : TargetWeightsTask :=
  mk_task (Some (substrate_shape a)) (Some (max_weight a))
    (Some (fitnessmeasure a)) (Some (built_locs a))
    (Some (mk_ndarray [product (substrate_shape a);
                       product (substrate_shape a)]
                      (map (clip (- max_weight a) (max_weight a)) d))).

(** A rule whose callables return arrays of the size of the tensor. *)
Definition rule_sized (a : init_args) (rule : where_t * what_t) : Prop :=
  forall cm, shape cm = cm_shape a ->
    length (rule_mask (mgrid (cm_shape a)) cm (fst rule))
      = product (cm_shape a) /\
    length (rule_vals (mgrid (cm_shape a)) cm (snd rule))
      = product (cm_shape a).

(** ** Rules that overlap *)

(** Three rules on a line of two nodes: the connections that leave the
    second node get 1, then every connection gets 2, then the connections
    that leave the second node get 5. *)
Definition from_second_node : where_t :=
  WhereCallable (fun coords => map (Qle_bool 0) (nth 0 coords [])).

Definition args_overlay : init_args :=
  mk_args 0 [2%nat] 0 3
    [(from_second_node, WhatNumber 1); (WhereOther, WhatNumber 2);
     (from_second_node, WhatNumber 5)]
    "absdiff".

(** The overlay as C6 words it: where the masks of two rules of the list
    both select a cell, the target holds there the value of the later of
    the two; a cell that no rule selects holds the default weight.  The
    value of a rule is taken on the tensor as the rule finds it. *)
Definition overlay_as_stated (a : init_args) (g : RandomState) : Prop :=
  forall self target,
    new_task a g = Ok self -> self_target self = Some target ->
    (forall pre r1 mid r2 post cm p,
       funcs a = pre ++ r1 :: mid ++ r2 :: post ->
       apply_rules (mgrid (cm_shape a)) (initial_cm a) (pre ++ r1 :: mid)
         = Ok cm ->
       nth p (rule_mask (mgrid (cm_shape a)) cm (fst r1)) false = true ->
       nth p (rule_mask (mgrid (cm_shape a)) cm (fst r2)) false = true ->
       nth p (data target) 0
       == nth p (rule_vals (mgrid (cm_shape a)) cm (snd r2)) 0)
    /\
    (forall p,
       (p < product (cm_shape a))%nat ->
       (forall r, In r (funcs a) ->
          nth p (rule_mask (mgrid (cm_shape a)) (initial_cm a) (fst r)) false
          = false) ->
       nth p (data target) 0 == default_weight a).

(** ** More inputs for the examples *)

(** Shape (2,2) in the mode [sqerr]; with a maximal weight of 0; a line
    of two nodes whose every weight is drawn at random. *)
Definition args_sqerr : init_args :=
  mk_args 1 [2%nat; 2%nat] 0 3 [] "sqerr".

Definition args_zero_weight : init_args :=
  mk_args 0 [2%nat; 2%nat] 0 0 [] "absdiff".

Definition args_all_noise : init_args :=
  mk_args 0 [2%nat] 1 3 [(WhereOther, WhatNumber 5)] "absdiff".


(** ** The rows of the location table *)

(** The coordinate vectors of the indices of a tensor of shape [dims],
    in row-major order. *)
Fixpoint grid_rows (dims : list nat) : list (list Q) :=
  match dims with
  | [] => [[]]
  | s :: rest =>
      flat_map (fun i => map (cons (grid_point s i)) (grid_rows rest))
               (seq 0 s)
  end.

(** * Properties *)

(** ** Comparisons *)

Lemma Qltb_lt (x y : Q) : Qltb x y = true <-> x < y.
Proof.
  unfold Qltb. rewrite negb_true_iff.
  split.
  - intros H. apply Qnot_le_lt. intros Hle.
    apply Qle_bool_iff in Hle. congruence.
  - intros H. destruct (Qle_bool y x) eqn:E; [|reflexivity].
    apply Qle_bool_iff in E. apply Qlt_not_le in H. contradiction.
Qed.

Lemma Qltb_ge (x y : Q) : Qltb x y = false <-> y <= x.
Proof.
  unfold Qltb. rewrite negb_false_iff. apply Qle_bool_iff.
Qed.

Lemma shape_eqb_eq (s t : list nat) : shape_eqb s t = true <-> s = t.
Proof.
  revert t. induction s as [|a s IH]; intros [|b t]; simpl;
    try (split; [discriminate | congruence]); try tauto.
  rewrite andb_true_iff, Nat.eqb_eq, IH.
  split; [intros [-> ->]; reflexivity | intros H; inversion H; auto].
Qed.

Lemma shape_eqb_neq (s t : list nat) : s <> t -> shape_eqb s t = false.
Proof.
  intros H. destruct (shape_eqb s t) eqn:E; [|reflexivity].
  apply shape_eqb_eq in E. contradiction.
Qed.

(** ** The noise guard of the constructor *)

Lemma noise_guard (q : Q) :
  Qle_bool 0 q && Qle_bool q 1 = true <-> 0 <= q /\ q <= 1.
Proof.
  rewrite andb_true_iff, !Qle_bool_iff. tauto.
Qed.

Lemma init_bad_noise (self : TargetWeightsTask) (a : init_args)
  (g : RandomState) :
  ~ (0 <= noise a /\ noise a <= 1) ->
  __init__ self a g =
    (mk_task (Some (substrate_shape a)) (Some (max_weight a))
             (Some (fitnessmeasure a)) (self_locs self) (self_target self),
     g, Raise (Exception noise_message)).
Proof.
  intros H. unfold __init__.
  destruct (Qle_bool 0 (noise a) && Qle_bool (noise a) 1) eqn:E.
  - apply noise_guard in E. contradiction.
  - reflexivity.
Qed.

(** C4, as amended.  When the noise is outside [0, 1] the constructor
    raises its exception with the noise message before the coordinate
    grid, the location table and the target are built and before any draw
    is taken from the random state; by then the instance holds the three
    attributes [substrate_shape], [max_weight] and [fitnessmeasure], and
    the call [TargetWeightsTask(...)] yields no instance. *)
Theorem C4_noise_rejected (a : init_args) (g : RandomState) :
  ~ (0 <= noise a /\ noise a <= 1) ->
  __init__ fresh a g =
    (mk_task (Some (substrate_shape a)) (Some (max_weight a))
             (Some (fitnessmeasure a)) None None,
     g, Raise (Exception noise_message))
  /\ new_task a g = Raise (Exception noise_message).
Proof.
  intros H. pose proof (init_bad_noise fresh a g H) as E.
  split; [exact E|]. unfold new_task. rewrite E. reflexivity.
Qed.

Lemma C4_noise_rejected_witness :
  ~ (0 <= noise args_noise_2 /\ noise args_noise_2 <= 1)
  /\ new_task args_noise_2 g_half = Raise (Exception noise_message).
Proof.
  assert (H : ~ (0 <= noise args_noise_2 /\ noise args_noise_2 <= 1)).
  { simpl. intros [_ H]. apply Qle_bool_iff in H. discriminate. }
  split; [exact H|].
  exact (proj2 (C4_noise_rejected args_noise_2 g_half H)).
Defined.

(** C4, as stated, fails: with a noise of 2 the constructor raises, and
    the instance it leaves is not the fresh one, its attribute
    [substrate_shape] is set. *)
Lemma C4_counterexample :
  ~ (forall a g, ~ (0 <= noise a /\ noise a <= 1) ->
       exists e, __init__ fresh a g = (fresh, g, Raise e)).
Proof.
  intros H.
  destruct (H args_noise_2 g_half) as [e E].
  - simpl. intros [_ H1]. apply Qle_bool_iff in H1. discriminate.
  - vm_compute in E. discriminate.
Qed.

(** ** Shape mismatch *)

(** C8.  When the shape of the candidate is not the shape of the target,
    [evaluate] raises the exception whose message holds both shapes, the
    candidate's first; this is decided by the target alone, whatever the
    other attributes are, so before any metric is computed; [evaluate]
    has no access to the instance other than reading it. *)
Theorem C8_shape_mismatch (self : TargetWeightsTask) (target cm : ndarray) :
  self_target self = Some target ->
  shape cm <> shape target ->
  evaluate self cm =
    Raise (Exception
             ("Network shape (" ++ str_tuple (shape cm)
              ++ ") does not match target shape ("
              ++ str_tuple (shape target) ++ ").")).
Proof.
  intros Ht Hs. unfold evaluate. rewrite Ht. simpl.
  rewrite (shape_eqb_neq _ _ Hs). reflexivity.
Qed.

(** ** What a successful [evaluate] has computed *)

Lemma lstsq_residuals (a : list (list Q)) (b x res : list Q) (rk : nat) :
  lstsq a b = (x, res, rk) ->
  rk = rank (ncols a) a /\
  (res <> [] -> rk = ncols a /\ (ncols a < length a)%nat) /\
  (rk = ncols a -> (ncols a < length a)%nat -> res <> []).
Proof.
  unfold lstsq. intros H. injection H as _ Hres Hrk. subst rk.
  split; [reflexivity|].
  destruct (Nat.eqb_spec (rank (ncols a) a) (ncols a)) as [E1|E1];
    destruct (Nat.ltb_spec (ncols a) (length a)) as [E2|E2];
    cbn [andb] in Hres; subst res; split;
    solve [ intros _; auto | intros H; exfalso; apply H; reflexivity
          | intros; discriminate | intros; lia | intros; contradiction ].
Qed.

Lemma evaluate_Ok_inv (self : TargetWeightsTask) (cm : ndarray) (m : metrics) :
  evaluate self cm = Ok m ->
  exists target locs mw fm,
    self_target self = Some target /\ self_locs self = Some locs /\
    self_max_weight self = Some mw /\ self_fitnessmeasure self = Some fm /\
    shape cm = shape target /\
    rank (ncols locs) locs = ncols locs /\ (ncols locs < length locs)%nat /\
    error m = Qsum (map (fun v => v ^ 2) (sub (data cm) (data target))) /\
    diff m = mean (map Qabs (sub (data cm) (data target))) /\
    correct m =
      mean (map (fun d => if Qltb d (mw / 10) then 1 else 0)
                (map Qabs (sub (data cm) (data target)))) /\
    ((fm = "absdiff"%string /\
      fitness m =
        Rpower 2 (Q2R (mean (map (fun d => 2 * mw - d)
                                 (map Qabs (sub (data cm) (data target)))))))
     \/ (fm = "sqerr"%string /\ fitness m = Q2R (1 / (1 + error m)))).
Proof.
  unfold evaluate. intros H.
  destruct (self_target self) as [target|]; cbn [bind getattr] in H;
    [|discriminate].
  destruct (shape_eqb (shape cm) (shape target)) eqn:Es;
    cbn [negb] in H; [|discriminate].
  apply shape_eqb_eq in Es.
  destruct (self_locs self) as [locs|]; cbn [bind getattr] in H;
    [|discriminate].
  destruct (lstsq locs (data target)) as [[x res] rk] eqn:El.
  destruct res as [|r0 res]; cbn [bind first_item] in H; [discriminate|].
  destruct (self_max_weight self) as [mw|]; cbn [bind getattr] in H;
    [|discriminate].
  destruct (self_fitnessmeasure self) as [fm|]; cbn [bind getattr] in H;
    [|discriminate].
  apply lstsq_residuals in El. destruct El as [Hrk [Hne _]].
  destruct Hne as [Hfull Hlt]; [discriminate|]. subst rk.
  exists target, locs, mw, fm.
  destruct (String.eqb fm "absdiff") eqn:E1.
  - apply String.eqb_eq in E1. cbn [bind read_local] in H.
    injection H as <-. cbn [error diff correct fitness].
    repeat (split; [solve [auto]|]). left. auto.
  - destruct (String.eqb fm "sqerr") eqn:E2;
      cbn [bind read_local] in H; [|discriminate].
    apply String.eqb_eq in E2.
    injection H as <-. cbn [error diff correct fitness].
    repeat (split; [solve [auto]|]). right. auto.
Qed.

(** ** solve *)

(** C9.  [solve] returns [True] exactly when [evaluate] returns a
    dictionary whose [correct] is above 8/10; it returns [False] when
    [correct] is 8/10, and whenever [evaluate] returns [solve] returns
    too. *)
Theorem C9_solve_threshold (self : TargetWeightsTask) (cm : ndarray) :
  (solve self cm = Ok true <->
   exists m, evaluate self cm = Ok m /\ 8 # 10 < correct m)
  /\ (forall m, evaluate self cm = Ok m -> correct m == 8 # 10 ->
      solve self cm = Ok false).
Proof.
  unfold solve. split; [split|].
  - destruct (evaluate self cm) as [m|e]; simpl; [|discriminate].
    intros H. injection H as H. exists m. split; [reflexivity|].
    apply Qltb_lt. exact H.
  - intros [m [-> H]]. simpl. f_equal. apply Qltb_lt. exact H.
  - intros m -> H. simpl. f_equal. apply Qltb_ge. rewrite H. apply Qle_refl.
Qed.

(** ** Sums and means *)

Lemma Qsum_cons (v : Q) (l : list Q) : Qsum (v :: l) == v + Qsum l.
Proof. unfold Qsum. cbn [fold_right]. apply Qred_correct. Qed.

Lemma Qsum_zero (l : list Q) : Forall (fun v => v == 0) l -> Qsum l == 0.
Proof.
  induction 1 as [|v l Hv _ IH]; [reflexivity|].
  cbv beta in Hv. rewrite Qsum_cons, Hv, IH. reflexivity.
Qed.

Lemma Qsum_const (c : Q) (l : list Q) :
  Forall (fun v => v == c) l -> Qsum l == c * Qlen l.
Proof.
  induction 1 as [|v l Hv _ IH].
  - unfold Qlen. simpl. ring.
  - cbv beta in Hv. unfold Qlen in *. simpl length.
    rewrite Nat2Z.inj_succ, <- Z.add_1_r, inject_Z_plus.
    rewrite Qsum_cons, Hv, IH. ring.
Qed.

Lemma Qsum_const_minus (c : Q) (l : list Q) :
  Qsum (map (fun d => c - d) l) == c * Qlen l - Qsum l.
Proof.
  induction l as [|v l IH].
  - unfold Qlen. simpl. ring.
  - simpl map. unfold Qlen in *. simpl length.
    rewrite Nat2Z.inj_succ, <- Z.add_1_r, inject_Z_plus.
    rewrite !Qsum_cons, IH. ring.
Qed.

Lemma Qlen_pos (l : list Q) : l <> [] -> 0 < Qlen l.
Proof.
  intros H. destruct l as [|v l]; [contradiction|].
  unfold Qlen. simpl length. rewrite Nat2Z.inj_succ.
  change 0 with (inject_Z 0). rewrite <- Zlt_Qlt. lia.
Qed.

Lemma mean_const (c : Q) (l : list Q) :
  l <> [] -> Forall (fun v => v == c) l -> mean l == c.
Proof.
  intros Hne H. unfold mean. rewrite (Qsum_const c l H).
  pose proof (Qlen_pos l Hne) as Hp. field. intros E. rewrite E in Hp.
  apply (Qlt_irrefl 0). exact Hp.
Qed.

(** The mean of [c - d] over an array is [c] less the mean of the array. *)
Lemma mean_const_minus (c : Q) (l : list Q) :
  l <> [] -> mean (map (fun d => c - d) l) == c - mean l.
Proof.
  intros Hne. unfold mean. rewrite Qsum_const_minus.
  assert (E : Qlen (map (fun d => c - d) l) = Qlen l)
    by (unfold Qlen; rewrite length_map; reflexivity).
  rewrite E. pose proof (Qlen_pos l Hne) as Hp. field.
  intros E0. rewrite E0 in Hp. apply (Qlt_irrefl 0). exact Hp.
Qed.

Lemma sub_length (a b : list Q) :
  length a = length b -> length (sub a b) = length a.
Proof.
  intros H. unfold sub. rewrite length_map, length_combine. lia.
Qed.

Lemma sub_self (a : list Q) : Forall (fun v => v == 0) (sub a a).
Proof.
  unfold sub. induction a as [|v a IH]; cbn [combine map fst snd];
    constructor; [|exact IH].
  cbv beta. rewrite Qred_correct. ring.
Qed.

(** ** Shapes and sizes in the constructor *)

Lemma product_app (s t : list nat) :
  product (s ++ t) = (product s * product t)%nat.
Proof.
  unfold product. induction s as [|n s IH]; simpl; [lia|].
  rewrite IH. lia.
Qed.

Lemma masked_assign_length (cm : list Q) (mask : list bool) (vals r : list Q) :
  masked_assign cm mask vals = Ok r -> length r = length cm.
Proof.
  revert mask vals r.
  induction cm as [|c cm IH]; intros [|m mask] [|v vals] r; simpl;
    try discriminate.
  - intros H. injection H as <-. reflexivity.
  - destruct (masked_assign cm mask vals) as [r'|] eqn:E; simpl;
      [|discriminate].
    intros H. injection H as <-. simpl. f_equal. eapply IH. exact E.
Qed.

Lemma masked_assign_total (cm : list Q) (mask : list bool) (vals : list Q) :
  length mask = length cm -> length vals = length cm ->
  exists r, masked_assign cm mask vals = Ok r.
Proof.
  revert mask vals.
  induction cm as [|c cm IH]; intros [|m mask] [|v vals]; simpl;
    try discriminate; intros Hm Hv.
  - eexists. reflexivity.
  - destruct (IH mask vals) as [r ->]; [lia|lia|]. simpl. eexists. reflexivity.
Qed.

Lemma apply_rule_shape (coords : list (list Q)) (cm cm' : ndarray)
  (rule : where_t * what_t) :
  apply_rule coords cm rule = Ok cm' ->
  shape cm' = shape cm /\ length (data cm') = length (data cm).
Proof.
  unfold apply_rule. intros H.
  destruct (masked_assign _ _ _) as [d|] eqn:E; simpl in H; [|discriminate].
  injection H as <-. simpl. split; [reflexivity|].
  eapply masked_assign_length. exact E.
Qed.

Lemma apply_rules_shape (coords : list (list Q)) (rules : list (where_t * what_t))
  (cm cm' : ndarray) :
  apply_rules coords cm rules = Ok cm' ->
  shape cm' = shape cm /\ length (data cm') = length (data cm).
Proof.
  revert cm. induction rules as [|rule rules IH]; intros cm; simpl.
  - intros H. injection H as <-. auto.
  - destruct (apply_rule coords cm rule) as [cm1|] eqn:E; simpl;
      [|discriminate].
    intros H. apply IH in H. apply apply_rule_shape in E.
    destruct H as [-> ->]. exact E.
Qed.

Lemma random_length (n : nat) (g : RandomState) :
  length (fst (random n g)) = n.
Proof. unfold random. simpl. rewrite length_map, length_seq. reflexivity. Qed.

(** ** The constructor *)

Lemma initial_cm_length (a : init_args) :
  length (data (initial_cm a)) = product (cm_shape a).
Proof. simpl. rewrite length_map, repeat_length. reflexivity. Qed.

(** What a call of the constructor that returns has built. *)
Lemma new_task_inv (a : init_args) (g : RandomState) (self : TargetWeightsTask) :
  new_task a g = Ok self ->
  (0 <= noise a /\ noise a <= 1) /\
  exists cm1 d,
    apply_rules (mgrid (cm_shape a)) (initial_cm a) (funcs a) = Ok cm1 /\
    add_noise a g cm1 = Ok d /\
    length d = product (cm_shape a) /\
    self = built_task a d.
Proof.
  unfold new_task, __init__.
  destruct (Qle_bool 0 (noise a) && Qle_bool (noise a) 1) eqn:En;
    cbn [negb]; [|discriminate].
  apply noise_guard in En. intros H. split; [exact En|].
  fold (cm_shape a) in H. fold (initial_cm a) in H.
  destruct (apply_rules (mgrid (cm_shape a)) (initial_cm a) (funcs a))
    as [cm1|e] eqn:Er; [|discriminate].
  unfold random in H. cbn [fst snd] in H.
  match type of H with
  | context [masked_assign ?c ?m ?v] =>
      destruct (masked_assign c m v) as [d|e] eqn:Em
  end; [|discriminate].
  cbn [bind] in H. injection H as <-.
  exists cm1, d. split; [reflexivity|]. split; [exact Em|].
  split; [|reflexivity].
  apply masked_assign_length in Em. rewrite Em.
  apply apply_rules_shape in Er. destruct Er as [_ ->].
  apply initial_cm_length.
Qed.

(** The constructor returns when the noise is in [0, 1] and the
    callables of the rules return arrays of the size of the tensor. *)
Lemma new_task_total (a : init_args) (g : RandomState) :
  0 <= noise a /\ noise a <= 1 ->
  Forall (rule_sized a) (funcs a) ->
  exists self, new_task a g = Ok self.
Proof.
  intros Hn Hr.
  assert (Hrules : forall rules cm,
             Forall (rule_sized a) rules ->
             shape cm = cm_shape a ->
             length (data cm) = product (cm_shape a) ->
             exists cm1, apply_rules (mgrid (cm_shape a)) cm rules = Ok cm1).
  { induction rules as [|rule rules IH]; intros cm HF Hs Hl; simpl.
    - eexists. reflexivity.
    - inversion HF as [|? ? Hrule HF']; subst.
      destruct (Hrule cm Hs) as [Hm Hv].
      unfold apply_rule.
      destruct (masked_assign_total (data cm) _ _
                  (eq_trans Hm (eq_sym Hl)) (eq_trans Hv (eq_sym Hl)))
        as [d Ed].
      rewrite Ed. cbn [bind]. apply IH; [exact HF'|exact Hs|].
      cbn [data]. apply masked_assign_length in Ed. lia. }
  destruct (Hrules (funcs a) (initial_cm a) Hr eq_refl (initial_cm_length a))
    as [cm1 Er].
  pose proof (apply_rules_shape _ _ _ _ Er) as [Hs Hl].
  rewrite initial_cm_length in Hl.
  unfold new_task, __init__.
  apply noise_guard in Hn. rewrite Hn. cbn [negb].
  fold (cm_shape a). fold (initial_cm a). rewrite Er.
  unfold random. cbn [fst snd].
  match goal with
  | |- context [masked_assign ?c ?m ?v] =>
      destruct (masked_assign_total c m v) as [d Ed]
  end.
  - rewrite length_map, length_map, length_seq, Hs, Hl. reflexivity.
  - rewrite length_map, length_map, length_seq, Hs, Hl. reflexivity.
  - rewrite Ed. cbn [bind]. eexists. reflexivity.
Qed.

Lemma new_task_built (a : init_args) (g : RandomState) (cm1 : ndarray)
  (d : list Q) :
  0 <= noise a /\ noise a <= 1 ->
  apply_rules (mgrid (cm_shape a)) (initial_cm a) (funcs a) = Ok cm1 ->
  add_noise a g cm1 = Ok d ->
  new_task a g = Ok (built_task a d).
Proof.
  intros Hn Er Ed. unfold new_task, __init__.
  apply noise_guard in Hn. rewrite Hn. cbn [negb].
  fold (cm_shape a). fold (initial_cm a). rewrite Er.
  unfold add_noise, random in Ed. cbn [fst snd] in Ed.
  unfold random. cbn [fst snd]. rewrite Ed. reflexivity.
Qed.

Lemma rule_sized_plain (a : init_args) (c : Q) :
  rule_sized a (WhereOther, WhatNumber c).
Proof.
  intros cm Hs. simpl. rewrite length_map, !repeat_length, Hs. auto.
Qed.

(** ** The clip *)

Lemma clip_bounds (lo hi v : Q) :
  lo <= hi -> lo <= clip lo hi v /\ clip lo hi v <= hi.
Proof.
  intros H. unfold clip. split.
  - apply Q.min_glb; [apply Q.le_max_r|exact H].
  - apply Q.le_min_r.
Qed.

Lemma clip_inside (lo hi v : Q) : lo <= v -> v <= hi -> clip lo hi v == v.
Proof.
  intros H1 H2. unfold clip. rewrite Q.max_l by exact H1.
  apply Q.min_l. exact H2.
Qed.

(** C5.  For a positive [max_weight], a noise in [0, 1] and rules whose
    callables return arrays of the size of the tensor, the constructor
    returns an instance, and every entry of its target lies in
    [-max_weight, max_weight], whatever the default weight, the rules and
    the draws are. *)
Theorem C5_target_within_bounds (a : init_args) (g : RandomState) :
  0 < max_weight a ->
  0 <= noise a /\ noise a <= 1 ->
  Forall (rule_sized a) (funcs a) ->
  exists self target,
    new_task a g = Ok self /\ self_target self = Some target /\
    Forall (fun v => - max_weight a <= v /\ v <= max_weight a) (data target).
Proof.
  intros Hmw Hn Hr.
  destruct (new_task_total a g Hn Hr) as [self E].
  destruct (new_task_inv a g self E) as [_ [cm1 [d [_ [_ [_ ->]]]]]].
  eexists. eexists. split; [exact E|]. split; [reflexivity|].
  cbn [data]. apply Forall_map. apply Forall_forall. intros v _.
  apply clip_bounds.
  apply Qle_trans with 0; [|apply Qlt_le_weak; exact Hmw].
  apply (Qopp_le_compat 0). apply Qlt_le_weak. exact Hmw.
Qed.

Lemma C5_target_within_bounds_witness :
  exists self target,
    new_task args_noisy g_cycle = Ok self /\ self_target self = Some target /\
    Forall (fun v => - (3) <= v /\ v <= 3) (data target).
Proof.
  apply (C5_target_within_bounds args_noisy g_cycle).
  - reflexivity.
  - split; discriminate.
  - constructor; [apply rule_sized_plain|constructor].
Defined.

(** ** Without noise *)

Lemma masked_assign_none (cm : list Q) (mask : list bool) (vals : list Q) :
  length mask = length cm -> length vals = length cm ->
  Forall (fun b => b = false) mask ->
  masked_assign cm mask vals = Ok cm.
Proof.
  revert mask vals.
  induction cm as [|c cm IH]; intros [|m mask] [|v vals]; simpl;
    try discriminate; intros Hm Hv HF; [reflexivity|].
  inversion HF as [|? ? Hb HF']; subst.
  rewrite IH by (auto; lia). reflexivity.
Qed.

(** With a noise of zero no draw is below the noise, and the noise step
    leaves the tensor as the rules left it. *)
Lemma add_noise_zero (a : init_args) (g : RandomState) (cm1 : ndarray) :
  noise a == 0 -> unit_draws g -> wf_ndarray cm1 ->
  add_noise a g cm1 = Ok (data cm1).
Proof.
  intros Hn Hg Hwf. unfold add_noise. apply masked_assign_none.
  - rewrite length_map, random_length. symmetry. exact Hwf.
  - rewrite length_map, random_length. symmetry. exact Hwf.
  - apply Forall_map. apply Forall_forall. intros u Hu.
    unfold random in Hu. cbn [fst] in Hu. apply in_map_iff in Hu.
    destruct Hu as [i [<- _]]. apply Qltb_ge. rewrite Hn. apply Hg.
Qed.

Lemma g_half_unit : unit_draws g_half.
Proof. intros i. simpl. split; [discriminate|reflexivity]. Qed.

(** Without rules and without noise the tensor stays as it was
    initialised. *)
Lemma new_task_no_rules (a : init_args) (g : RandomState) :
  funcs a = [] -> noise a == 0 -> unit_draws g ->
  new_task a g = Ok (built_task a (data (initial_cm a))).
Proof.
  intros Hf Hn Hg. apply new_task_built with (cm1 := initial_cm a).
  - rewrite Hn. split; discriminate.
  - rewrite Hf. reflexivity.
  - apply add_noise_zero; [exact Hn|exact Hg|apply initial_cm_length].
Qed.

(** ** When [evaluate] returns *)

Lemma evaluate_returns (self : TargetWeightsTask) (target cm : ndarray)
  (locs : list (list Q)) (mw : Q) (fm : string) :
  self_target self = Some target -> self_locs self = Some locs ->
  self_max_weight self = Some mw -> self_fitnessmeasure self = Some fm ->
  shape cm = shape target ->
  rank (ncols locs) locs = ncols locs -> (ncols locs < length locs)%nat ->
  fm = "absdiff"%string \/ fm = "sqerr"%string ->
  exists m, evaluate self cm = Ok m.
Proof.
  intros Ht Hl Hmw Hfm Hs Hrk Hlt Hmode.
  unfold evaluate. rewrite Ht, Hl, Hmw, Hfm. cbn [bind getattr].
  apply shape_eqb_eq in Hs. rewrite Hs. cbn [negb].
  destruct (lstsq locs (data target)) as [[x res] rk] eqn:El.
  apply lstsq_residuals in El. destruct El as [-> [_ Hne]].
  destruct res as [|r0 res]; [exfalso; apply (Hne Hrk Hlt); reflexivity|].
  cbn [bind first_item].
  destruct Hmode as [-> | ->]; cbn [String.eqb Ascii.eqb Bool.eqb andb];
    cbn [bind read_local]; eexists; reflexivity.
Qed.

(** ** The scenario of shape (2,2) *)

Lemma new_task_2x2 (g : RandomState) :
  unit_draws g ->
  new_task args_2x2 g
  = Ok (built_task args_2x2 (data (initial_cm args_2x2))).
Proof.
  intros Hg. apply new_task_no_rules; [reflexivity|reflexivity|exact Hg].
Qed.

Lemma Rpower_2_6 : Rpower 2 (Q2R 6) = (2 ^ 6)%R.
Proof.
  replace (Q2R 6) with (INR 6) by (unfold Q2R; simpl; lra).
  apply Rpower_pow. lra.
Qed.

Lemma evaluate_2x2_returns (cm : ndarray) :
  shape cm = [4%nat; 4%nat] ->
  exists m,
    evaluate (built_task args_2x2 (data (initial_cm args_2x2))) cm = Ok m.
Proof.
  intros Hs.
  apply (evaluate_returns _ (full 4 1) cm (built_locs args_2x2) 3
           "absdiff"); auto.
  vm_compute. lia.
Qed.

(** C1.  With shape (2,2), default weight 1, noise 0, maximal weight 3
    and no rule, the target is the 4 x 4 matrix of ones; on the candidate
    of ones [evaluate] returns error 0, diff 0, correct 1 and fitness
    2^6; on the candidate of zeros it returns diff 1, error 16 and
    correct 0. *)
Theorem C1_scenario_2x2 (g : RandomState) :
  unit_draws g ->
  exists self,
    new_task args_2x2 g = Ok self /\
    self_target self = Some (full 4 1) /\
    (exists m, evaluate self (full 4 1) = Ok m /\
       error m == 0 /\ diff m == 0 /\ correct m == 1 /\
       fitness m = (2 ^ 6)%R) /\
    (exists m, evaluate self (full 4 0) = Ok m /\
       diff m == 1 /\ error m == 16 /\ correct m == 0).
Proof.
  intros Hg. eexists. split; [apply new_task_2x2; exact Hg|].
  set (self := built_task args_2x2 (data (initial_cm args_2x2))).
  assert (Ht : self_target self = Some (full 4 1)) by reflexivity.
  pose proof evaluate_2x2_returns as Hret. fold self in Hret.
  split; [exact Ht|]. split.
  - destruct (Hret (full 4 1) eq_refl) as [m Em]. exists m.
    split; [exact Em|].
    destruct (evaluate_Ok_inv _ _ _ Em)
      as (t & l & mw & fm & Et & _ & Emw & Efm & _ & _ & _
          & -> & -> & -> & Hfit).
    rewrite Ht in Et. injection Et as <-.
    injection Emw as <-. injection Efm as <-.
    repeat (split; [vm_compute; reflexivity|]).
    destruct Hfit as [[_ ->]|[Hx _]]; [|discriminate].
    rewrite <- Rpower_2_6. f_equal. apply Qeq_eqR. vm_compute. reflexivity.
  - destruct (Hret (full 4 0) eq_refl) as [m Em]. exists m.
    split; [exact Em|].
    destruct (evaluate_Ok_inv _ _ _ Em)
      as (t & l & mw & fm & Et & _ & Emw & Efm & _ & _ & _
          & -> & -> & -> & _).
    rewrite Ht in Et. injection Et as <-. injection Emw as <-.
    repeat split; vm_compute; reflexivity.
Qed.

Lemma C1_scenario_2x2_witness :
  unit_draws g_half /\
  exists self,
    new_task args_2x2 g_half = Ok self /\
    self_target self = Some (full 4 1) /\
    (exists m, evaluate self (full 4 1) = Ok m /\
       error m == 0 /\ diff m == 0 /\ correct m == 1 /\
       fitness m = (2 ^ 6)%R) /\
    (exists m, evaluate self (full 4 0) = Ok m /\
       diff m == 1 /\ error m == 16 /\ correct m == 0).
Proof.
  split; [exact g_half_unit|].
  exact (C1_scenario_2x2 g_half g_half_unit).
Defined.

(** ** Sizes in a constructed instance *)

Lemma built_locs_length (a : init_args) :
  length (built_locs a) = product (cm_shape a).
Proof.
  unfold built_locs, transpose_reshape. rewrite length_map, length_seq.
  reflexivity.
Qed.

(** In an instance on which [evaluate] returns, the differences between
    a well-formed candidate and the target are not the empty array. *)
Lemma diffs_nonempty (a : init_args) (d : list Q) (cm : ndarray) (m : metrics) :
  length d = product (cm_shape a) ->
  wf_ndarray cm ->
  evaluate (built_task a d) cm = Ok m ->
  map Qabs (sub (data cm)
                (map (clip (- max_weight a) (max_weight a)) d)) <> [].
Proof.
  intros Hd Hwf Em.
  destruct (evaluate_Ok_inv _ _ _ Em)
    as (t & l & mw & fm & Et & El & _ & _ & Hs & _ & Hlt & _).
  cbn [built_task self_target self_locs] in Et, El.
  injection Et as <-. injection El as <-. cbn [shape] in Hs.
  rewrite built_locs_length in Hlt.
  assert (Hpos : (0 < product (cm_shape a))%nat) by lia.
  assert (Hcm : length (data cm) = product (cm_shape a)).
  { rewrite Hwf, Hs. unfold cm_shape. rewrite product_app.
    unfold product. simpl. lia. }
  intros E. apply (f_equal (@length Q)) in E.
  rewrite length_map, sub_length in E;
    [|rewrite length_map; congruence].
  simpl in E. lia.
Qed.

(** ** The fitness of the mode [absdiff] *)

(** The mean of [2 * max_weight - d] that the code takes is
    [2 * max_weight] less the mean of the [d]. *)
Lemma evaluate_absdiff_fitness (a : init_args) (g : RandomState)
  (self : TargetWeightsTask) (cm : ndarray) (m : metrics) :
  new_task a g = Ok self ->
  fitnessmeasure a = "absdiff"%string ->
  wf_ndarray cm ->
  evaluate self cm = Ok m ->
  fitness m = Rpower 2 (Q2R (2 * max_weight a - diff m)).
Proof.
  intros Hnew Hmode Hwf Em.
  destruct (new_task_inv a g self Hnew) as [_ (cm1 & d & _ & _ & Hd & ->)].
  pose proof (diffs_nonempty a d cm m Hd Hwf Em) as Hne.
  destruct (evaluate_Ok_inv _ _ _ Em)
    as (t & l & mw & fm & Et & _ & Emw & Efm & _ & _ & _
        & _ & Hdiff & _ & Hfit).
  cbn [built_task self_target self_max_weight self_fitnessmeasure]
    in Et, Emw, Efm.
  injection Et as <-. injection Emw as <-. injection Efm as <-.
  cbn [data] in Hdiff, Hfit.
  destruct Hfit as [[_ ->]|[Hx _]]; [|rewrite Hmode in Hx; discriminate].
  apply f_equal. apply Qeq_eqR. rewrite Hdiff.
  apply mean_const_minus. exact Hne.
Qed.

(** C2.  In the mode [absdiff], the fitness that [evaluate] returns for
    a candidate is 2 to the power [2 * max_weight - diff], where [diff]
    is the returned mean of the absolute differences between the
    candidate and the target. *)
Theorem C2_absdiff_fitness (a : init_args) (g : RandomState)
  (self : TargetWeightsTask) (cm : ndarray) (m : metrics) :
  new_task a g = Ok self ->
  fitnessmeasure a = "absdiff"%string ->
  wf_ndarray cm ->
  evaluate self cm = Ok m ->
  fitness m = Rpower 2 (Q2R (2 * max_weight a - diff m)).
Proof. exact (evaluate_absdiff_fitness a g self cm m). Qed.

Lemma wf_full (side : nat) (v : Q) : wf_ndarray (full side v).
Proof.
  unfold wf_ndarray, full, product. simpl. rewrite repeat_length. lia.
Qed.

Lemma C2_absdiff_fitness_witness :
  exists self m,
    new_task args_2x2 g_half = Ok self /\
    evaluate self (full 4 0) = Ok m /\
    fitness m = Rpower 2 (Q2R (2 * 3 - diff m)).
Proof.
  destruct (evaluate_2x2_returns (full 4 0) eq_refl) as [m Em].
  exists (built_task args_2x2 (data (initial_cm args_2x2))), m.
  split; [exact (new_task_2x2 g_half g_half_unit)|].
  split; [exact Em|].
  exact (C2_absdiff_fitness args_2x2 g_half _ (full 4 0) m
           (new_task_2x2 g_half g_half_unit) eq_refl (wf_full 4 0) Em).
Defined.

(** In the mode [absdiff], of two candidates of one task the one with
    the larger mean difference has the smaller fitness. *)
Lemma absdiff_fitness_decreasing (a : init_args) (g : RandomState)
  (self : TargetWeightsTask) (cm1 cm2 : ndarray) (m1 m2 : metrics) :
  new_task a g = Ok self ->
  fitnessmeasure a = "absdiff"%string ->
  wf_ndarray cm1 -> wf_ndarray cm2 ->
  evaluate self cm1 = Ok m1 -> evaluate self cm2 = Ok m2 ->
  diff m1 < diff m2 ->
  (fitness m2 < fitness m1)%R.
Proof.
  intros Hnew Hmode Hwf1 Hwf2 E1 E2 H.
  rewrite (evaluate_absdiff_fitness a g self cm1 m1 Hnew Hmode Hwf1 E1).
  rewrite (evaluate_absdiff_fitness a g self cm2 m2 Hnew Hmode Hwf2 E2).
  apply Rpower_lt; [lra|]. apply Qlt_Rlt.
  apply Qplus_lt_r. apply Qopp_lt_compat. exact H.
Qed.

(** ** The target as its own candidate *)

(** When [evaluate] returns on the target itself, the error and the mean
    difference are 0 and, for a positive maximal weight, every entry
    counts as correct. *)
Lemma evaluate_target_metrics (a : init_args) (g : RandomState)
  (self : TargetWeightsTask) (target : ndarray) (m : metrics) :
  0 < max_weight a ->
  new_task a g = Ok self ->
  self_target self = Some target ->
  evaluate self target = Ok m ->
  error m == 0 /\ diff m == 0 /\ correct m == 1.
Proof.
  intros Hmw Hnew Ht Em.
  destruct (new_task_inv a g self Hnew) as [_ (cm1 & d & _ & _ & Hd & ->)].
  cbn [built_task self_target] in Ht. injection Ht as <-.
  assert (Hwf : wf_ndarray
            (mk_ndarray [product (substrate_shape a);
                         product (substrate_shape a)]
               (map (clip (- max_weight a) (max_weight a)) d))).
  { unfold wf_ndarray. cbn [data shape]. rewrite length_map, Hd.
    unfold cm_shape. rewrite product_app. unfold product. simpl. lia. }
  pose proof (diffs_nonempty a d _ m Hd Hwf Em) as Hne. cbn [data] in Hne.
  destruct (evaluate_Ok_inv _ _ _ Em)
    as (t & l & mw & fm & Et & _ & Emw & _ & _ & _ & _
        & -> & -> & -> & _).
  cbn [built_task self_target self_max_weight] in Et, Emw.
  injection Et as <-. injection Emw as <-. cbn [data] in *.
  set (t := map (clip (- max_weight a) (max_weight a)) d) in *.
  pose proof (sub_self t) as Hz.
  assert (Hza : Forall (fun v => v == 0) (map Qabs (sub t t))).
  { apply Forall_map. revert Hz. apply Forall_impl. intros v Hv.
    rewrite Hv. reflexivity. }
  split; [|split].
  - apply Qsum_zero. apply Forall_map. revert Hz. apply Forall_impl.
    intros v Hv. rewrite Hv. reflexivity.
  - unfold mean. rewrite (Qsum_zero _ Hza). unfold Qdiv. ring.
  - apply mean_const.
    + intros E. apply Hne. apply map_eq_nil in E. exact E.
    + apply Forall_map. revert Hza. apply Forall_impl. intros v Hv.
      assert (Hlt : Qltb v (max_weight a / 10) = true).
      { apply Qltb_lt. rewrite Hv. apply Qlt_shift_div_l; [reflexivity|].
        rewrite Qmult_0_l. exact Hmw. }
      rewrite Hlt. reflexivity.
Qed.

(** C7 fails on a substrate of a single node: the location table has one
    row and two columns, [lstsq] returns no residual, and [evaluate], on
    the target itself, raises [IndexError] at [res[0]]. *)
Theorem C7_single_node_raises :
  exists self target,
    new_task args_1 g_half = Ok self /\
    self_target self = Some target /\
    0 < max_weight args_1 /\
    evaluate self target = Raise IndexError.
Proof.
  eexists. eexists. split; [vm_compute; reflexivity|].
  split; [reflexivity|]. split; reflexivity.
Qed.

(** ** A fitness measure that is neither [absdiff] nor [sqerr] *)

(** With any other fitness measure the constructor returns as usual, and
    [evaluate] never returns: on a candidate of the shape of the target
    it raises [IndexError] at [res[0]] or, past that, [UnboundLocalError]
    for the local variable [fitness]; neither exception holds the
    measure. *)
Lemma evaluate_unknown_mode (a : init_args) (g : RandomState)
  (self : TargetWeightsTask) (target cm : ndarray) :
  fitnessmeasure a <> "absdiff"%string ->
  fitnessmeasure a <> "sqerr"%string ->
  new_task a g = Ok self ->
  self_target self = Some target ->
  shape cm = shape target ->
  evaluate self cm = Raise IndexError \/
  evaluate self cm = Raise (UnboundLocalError "fitness").
Proof.
  intros H1 H2 Hnew Ht Hs.
  destruct (new_task_inv a g self Hnew) as [_ (cm1 & d & _ & _ & Hd & ->)].
  cbn [built_task self_target] in Ht. injection Ht as <-.
  unfold evaluate.
  cbn [built_task self_target self_locs self_max_weight
       self_fitnessmeasure bind getattr].
  apply shape_eqb_eq in Hs. rewrite Hs. cbn [negb].
  destruct (lstsq _ _) as [[x res] rk].
  destruct res as [|r0 res]; cbn [bind first_item]; [left; reflexivity|].
  right.
  apply String.eqb_neq in H1. apply String.eqb_neq in H2.
  rewrite H1, H2. reflexivity.
Qed.

(** C3 fails on shape (2,2) with the measure ["mse"]: the constructor
    returns, and [evaluate] on the candidate of ones raises
    [UnboundLocalError] for [fitness], an exception that does not hold
    the measure. *)
Theorem C3_unknown_mode_unbound_local :
  exists self,
    new_task args_unknown_mode g_half = Ok self /\
    evaluate self (full 4 1) = Raise (UnboundLocalError "fitness").
Proof.
  eexists. split; vm_compute; reflexivity.
Qed.

(** ** The rank of a matrix with a repeated column *)

Lemma hd_nth (r : list Q) : hd 0 r = nth 0 r 0.
Proof. destruct r; reflexivity. Qed.

Lemma split_pivot_None (rows : list (list Q)) :
  split_pivot rows = None -> Forall (fun r => hd 0 r == 0) rows.
Proof.
  induction rows as [|r rows IH]; simpl; [constructor|].
  destruct (Qeq_bool (hd 0 r) 0) eqn:E; [|discriminate].
  destruct (split_pivot rows) as [[p others]|]; [discriminate|].
  intros _. constructor; [apply Qeq_bool_iff; exact E|apply IH; reflexivity].
Qed.

Lemma split_pivot_Some (rows others : list (list Q)) (p : list Q) :
  split_pivot rows = Some (p, others) ->
  ~ hd 0 p == 0 /\ In p rows /\ incl others rows.
Proof.
  revert others. induction rows as [|r rows IH]; simpl; [discriminate|].
  intros others. destruct (Qeq_bool (hd 0 r) 0) eqn:E.
  - destruct (split_pivot rows) as [[p' others']|]; [|discriminate].
    intros H. injection H as -> <-.
    destruct (IH others' eq_refl) as (Hp & Hin & Hincl).
    split; [exact Hp|]. split; [right; exact Hin|].
    intros x [->|Hx]; [left; reflexivity|right; apply Hincl; exact Hx].
  - intros H. injection H as -> ->. split.
    + apply Qeq_bool_neq. exact E.
    + split; [left; reflexivity|apply incl_tl, incl_refl].
Qed.

Lemma rank_le (n : nat) (rows : list (list Q)) : (rank n rows <= n)%nat.
Proof.
  revert rows. induction n as [|n IH]; intros rows; simpl; [lia|].
  destruct (split_pivot rows) as [[p others]|].
  - specialize (IH (map (eliminate p) others)). lia.
  - specialize (IH (map (@tl Q) rows)). lia.
Qed.

Lemma eliminate_length (n : nat) (p r : list Q) :
  length p = S n -> length r = S n -> length (eliminate p r) = n.
Proof.
  intros Hp Hr. unfold eliminate, sub.
  destruct (combine r _) as [|x l] eqn:E.
  - apply (f_equal (@length _)) in E.
    rewrite length_combine, length_map in E. simpl in E. lia.
  - apply (f_equal (@length _)) in E.
    rewrite length_combine, length_map in E. simpl in *.
    rewrite length_map. lia.
Qed.

(** Entry [j] of an eliminated row. *)
Lemma eliminate_nth (n j : nat) (p r : list Q) :
  length p = S n -> length r = S n -> (j < n)%nat ->
  nth j (eliminate p r) 0
  == nth (S j) r 0 - hd 0 r / hd 0 p * nth (S j) p 0.
Proof.
  intros Hp Hr Hj. unfold eliminate, sub.
  set (f := fun v => hd 0 r / hd 0 p * v).
  set (h := fun q : Q * Q => Qred (fst q - snd q)).
  assert (E : forall l : list Q, nth j (tl l) 0 = nth (S j) l 0)
    by (intros [|x l]; [destruct j|]; reflexivity).
  rewrite E.
  rewrite (nth_indep _ 0 (h (0, f 0))).
  - rewrite map_nth, combine_nth by (rewrite length_map; congruence).
    rewrite map_nth. unfold h, f. cbn [fst snd]. apply Qred_correct.
  - rewrite length_map, length_combine, length_map. lia.
Qed.

Lemma rank_zero_column (n : nat) :
  forall (rows : list (list Q)) (k : nat),
    Forall (fun r => length r = n) rows -> (k < n)%nat ->
    Forall (fun r => nth k r 0 == 0) rows ->
    (rank n rows < n)%nat.
Proof.
  induction n as [|n IH]; intros rows k Hlen Hk Hz; [lia|]. simpl.
  destruct (split_pivot rows) as [[p others]|] eqn:E.
  - apply split_pivot_Some in E. destruct E as (Hp & Hin & Hincl).
    rewrite Forall_forall in Hlen, Hz.
    destruct k as [|k].
    { exfalso. apply Hp. rewrite hd_nth. apply Hz. exact Hin. }
    apply -> Nat.succ_lt_mono. apply (IH _ k).
    + apply Forall_map. apply Forall_forall. intros r Hr.
      apply eliminate_length; apply Hlen; auto.
    + lia.
    + apply Forall_map. apply Forall_forall. intros r Hr.
      rewrite (eliminate_nth n k) by (try apply Hlen; auto; lia).
      rewrite (Hz r) by auto. rewrite (Hz p) by auto. ring.
  - pose proof (rank_le n (map (@tl Q) rows)). lia.
Qed.

(** A matrix with two equal columns has not full column rank. *)
Lemma rank_equal_columns (n : nat) :
  forall (rows : list (list Q)) (j k : nat),
    Forall (fun r => length r = n) rows -> (j < k)%nat -> (k < n)%nat ->
    Forall (fun r => nth j r 0 == nth k r 0) rows ->
    (rank n rows < n)%nat.
Proof.
  induction n as [|n IH]; intros rows j k Hlen Hjk Hk Heq; [lia|]. simpl.
  destruct (split_pivot rows) as [[p others]|] eqn:E.
  - apply split_pivot_Some in E. destruct E as (Hp & Hin & Hincl).
    rewrite Forall_forall in Hlen, Heq.
    destruct k as [|k]; [lia|].
    assert (Hlen' : Forall (fun r => length r = n) (map (eliminate p) others)).
    { apply Forall_map. apply Forall_forall. intros r Hr.
      apply eliminate_length; apply Hlen; auto. }
    apply -> Nat.succ_lt_mono. destruct j as [|j].
    + apply (rank_zero_column n _ k Hlen'); [lia|].
      apply Forall_map. apply Forall_forall. intros r Hr.
      rewrite (eliminate_nth n k) by (try apply Hlen; auto; lia).
      rewrite <- (Heq r) by auto. rewrite <- (Heq p) by auto.
      rewrite <- !hd_nth. field. exact Hp.
    + apply (IH _ j k Hlen'); [lia|lia|].
      apply Forall_map. apply Forall_forall. intros r Hr.
      rewrite (eliminate_nth n j), (eliminate_nth n k)
        by (try apply Hlen; auto; lia).
      rewrite (Heq r) by auto. rewrite (Heq p) by auto. reflexivity.
  - pose proof (rank_le n (map (@tl Q) rows)). lia.
Qed.

(** ** The coordinate grid of a substrate with a dimension of size 1 *)

Lemma concat_repeat_length (c : list Q) (s : nat) :
  length (concat (repeat c s)) = (s * length c)%nat.
Proof.
  induction s as [|s IH]; simpl; [reflexivity|].
  rewrite length_app, IH. reflexivity.
Qed.

Lemma flat_map_repeat_length (f : nat -> Q) (n : nat) (l : list nat) :
  length (flat_map (fun i => repeat (f i) n) l) = (length l * n)%nat.
Proof.
  induction l as [|i l IH]; simpl; [reflexivity|].
  rewrite length_app, repeat_length, IH. reflexivity.
Qed.

Lemma mgrid_length (dims : list nat) : length (mgrid dims) = length dims.
Proof.
  induction dims as [|s rest IH]; simpl; [reflexivity|].
  rewrite length_map, IH. reflexivity.
Qed.

(** Every array of the grid has one cell per index. *)
Lemma mgrid_axis_length (dims : list nat) :
  Forall (fun c => length c = product dims) (mgrid dims).
Proof.
  induction dims as [|s rest IH]; simpl; constructor.
  - rewrite flat_map_repeat_length, length_seq. reflexivity.
  - apply Forall_map. revert IH. apply Forall_impl. intros c Hc.
    rewrite concat_repeat_length, Hc. reflexivity.
Qed.

(** Along an axis of size 1 the coordinate is the same at every index. *)
Lemma mgrid_axis_one (dims : list nat) (k : nat) :
  (k < length dims)%nat -> nth k dims 0%nat = 1%nat ->
  Forall (fun v => v = grid_point 1 0) (nth k (mgrid dims) []).
Proof.
  revert k. induction dims as [|s rest IH]; intros k Hk Hone;
    [simpl in Hk; lia|].
  destruct k as [|k]; simpl in Hone |- *.
  - subst s. simpl. rewrite app_nil_r. apply Forall_forall.
    intros v Hv. apply repeat_spec in Hv. exact Hv.
  - simpl in Hk.
    rewrite (nth_indep _ [] (concat (repeat [] s)))
      by (rewrite length_map, mgrid_length; lia).
    rewrite (map_nth (fun c => concat (repeat c s))).
    specialize (IH k ltac:(lia) Hone).
    induction s as [|s IHs]; simpl; [constructor|].
    apply Forall_app. split; [exact IH|exact IHs].
Qed.

(** The location table of a substrate with a dimension of size 1 has two
    equal columns: that of the dimension as source coordinate and that of
    the dimension as target coordinate. *)
Lemma built_locs_deficient (a : init_args) :
  In 1%nat (substrate_shape a) ->
  ~ (rank (ncols (built_locs a)) (built_locs a) = ncols (built_locs a)
     /\ (ncols (built_locs a) < length (built_locs a))%nat).
Proof.
  intros Hin [Hrk Hlt].
  apply In_nth with (d := 0%nat) in Hin. destruct Hin as (k & Hk & Hone).
  set (D := length (substrate_shape a)) in *.
  set (dims := cm_shape a).
  assert (Hdims : length dims = (D + D)%nat)
    by (unfold dims, cm_shape; rewrite length_app; reflexivity).
  assert (H1 : nth k dims 0%nat = 1%nat)
    by (unfold dims, cm_shape; rewrite app_nth1 by exact Hk; exact Hone).
  assert (H2 : nth (D + k) dims 0%nat = 1%nat).
  { unfold dims, cm_shape. rewrite app_nth2 by (fold D; lia).
    fold D. replace (D + k - D)%nat with k by lia. exact Hone. }
  assert (Hrow : forall r, In r (built_locs a) ->
             length r = (D + D)%nat /\ nth k r 0 == nth (D + k) r 0).
  { intros r Hr. unfold built_locs, transpose_reshape in Hr.
    fold dims in Hr. apply in_map_iff in Hr. destruct Hr as (f & <- & Hf).
    apply in_seq in Hf. rewrite length_map, mgrid_length. split; [exact Hdims|].
    assert (Hcell : forall i, (i < length dims)%nat ->
               nth i dims 0%nat = 1%nat ->
               nth i (map (fun c => nth f c 0) (mgrid dims)) 0
               = grid_point 1 0).
    { intros i Hi Hi1.
      rewrite (nth_indep _ 0 (nth f [] 0))
        by (rewrite length_map, mgrid_length; exact Hi).
      rewrite (map_nth (fun c => nth f c 0)).
      pose proof (mgrid_axis_one dims i Hi Hi1) as Hall.
      pose proof (mgrid_axis_length dims) as Hlen.
      rewrite Forall_forall in Hall, Hlen.
      apply Hall. apply nth_In. rewrite Hlen; [lia|].
      apply nth_In. rewrite mgrid_length. exact Hi. }
    rewrite !Hcell by (auto; lia). reflexivity. }
  destruct (built_locs a) as [|r0 rows] eqn:El; [simpl in Hlt; lia|].
  rewrite <- El in *.
  assert (Hn : ncols (built_locs a) = (D + D)%nat).
  { unfold ncols. rewrite El. simpl. apply Hrow. rewrite El. left. reflexivity. }
  rewrite Hn in Hrk.
  pose proof (rank_equal_columns (D + D) (built_locs a) k (D + k)) as Hlt'.
  enough ((rank (D + D) (built_locs a) < D + D)%nat) by lia.
  apply Hlt'; try lia.
  - apply Forall_forall. intros r Hr. apply Hrow. exact Hr.
  - apply Forall_forall. intros r Hr. apply Hrow. exact Hr.
Qed.

(** ** The residual that [evaluate] takes from [lstsq] *)

Lemma lstsq_no_residual (a : list (list Q)) (b : list Q) :
  ~ (rank (ncols a) a = ncols a /\ (ncols a < length a)%nat) ->
  snd (fst (lstsq a b)) = [].
Proof.
  intros H. unfold lstsq. cbn [fst snd].
  destruct (Nat.eqb_spec (rank (ncols a) a) (ncols a)) as [E1|E1];
    destruct (Nat.ltb_spec (ncols a) (length a)) as [E2|E2];
    cbn [andb]; try reflexivity.
  exfalso. apply H. split; assumption.
Qed.

(** C10.  [evaluate] returns only if the location table has full column
    rank and more rows than columns, for otherwise [lstsq] gives no
    residual and [res[0]] is out of bounds.  When the substrate has a
    dimension of size 1, as (1,3) has, the table has two equal columns,
    and [evaluate] raises [IndexError] on every candidate of the shape of
    the target. *)
Theorem C10_residual_unguarded :
  (forall self cm m,
     evaluate self cm = Ok m ->
     exists locs,
       self_locs self = Some locs /\
       rank (ncols locs) locs = ncols locs /\
       (ncols locs < length locs)%nat)
  /\
  (forall a g self target cm,
     In 1%nat (substrate_shape a) ->
     new_task a g = Ok self ->
     self_target self = Some target ->
     shape cm = shape target ->
     evaluate self cm = Raise IndexError).
Proof.
  split.
  - intros self cm m Em.
    destruct (evaluate_Ok_inv _ _ _ Em)
      as (t & l & mw & fm & _ & El & _ & _ & _ & Hrk & Hlt & _).
    exists l. auto.
  - intros a g self target cm Hin Hnew Ht Hs.
    destruct (new_task_inv a g self Hnew) as [_ (cm1 & d & _ & _ & Hd & ->)].
    cbn [built_task self_target] in Ht. injection Ht as <-.
    unfold evaluate.
    cbn [built_task self_target self_locs bind getattr].
    apply shape_eqb_eq in Hs. rewrite Hs. cbn [negb].
    pose proof (lstsq_no_residual (built_locs a)
                  (data (mk_ndarray
                           [product (substrate_shape a);
                            product (substrate_shape a)]
                           (map (clip (- max_weight a) (max_weight a)) d)))
                  (built_locs_deficient a Hin)) as Hres.
    destruct (lstsq _ _) as [[x res] rk]. cbn [fst snd] in Hres.
    subst res. reflexivity.
Qed.

Lemma C10_residual_unguarded_witness :
  In 1%nat (substrate_shape args_1x3) /\
  exists self target,
    new_task args_1x3 g_half = Ok self /\
    self_target self = Some target /\
    evaluate self (full 3 0) = Raise IndexError.
Proof.
  split; [left; reflexivity|].
  assert (Hnew : new_task args_1x3 g_half
                 = Ok (built_task args_1x3 (data (initial_cm args_1x3)))).
  { apply new_task_no_rules; [reflexivity|reflexivity|exact g_half_unit]. }
  eexists. eexists. split; [exact Hnew|]. split; [reflexivity|].
  apply (proj2 C10_residual_unguarded args_1x3 g_half _ _ (full 3 0)
           (or_introl eq_refl) Hnew eq_refl eq_refl).
Defined.

(** ** Witnesses for the shape check and for [solve] *)

Lemma C8_shape_mismatch_witness :
  exists self target,
    new_task args_2x2 g_half = Ok self /\
    self_target self = Some target /\
    shape (full 3 0) <> shape target /\
    evaluate self (full 3 0)
    = Raise (Exception
        "Network shape ((3, 3)) does not match target shape ((4, 4)).").
Proof.
  exists (built_task args_2x2 (data (initial_cm args_2x2))), (full 4 1).
  split; [exact (new_task_2x2 g_half g_half_unit)|].
  split; [reflexivity|].
  assert (Hs : shape (full 3 0) <> shape (full 4 1)) by discriminate.
  split; [exact Hs|].
  exact (C8_shape_mismatch
           (built_task args_2x2 (data (initial_cm args_2x2)))
           (full 4 1) (full 3 0) eq_refl Hs).
Defined.

Lemma new_task_5 :
  new_task args_5 g_half = Ok (built_task args_5 (data (initial_cm args_5))).
Proof.
  apply new_task_no_rules; [reflexivity|reflexivity|exact g_half_unit].
Qed.

Lemma evaluate_almost_5 :
  exists m,
    evaluate (built_task args_5 (data (initial_cm args_5))) almost_5 = Ok m
    /\ correct m == 8 # 10.
Proof.
  destruct (evaluate_returns
              (built_task args_5 (data (initial_cm args_5)))
              (full 5 0) almost_5 (built_locs args_5) 3 "absdiff")
    as [m Em]; auto.
  { vm_compute. lia. }
  exists m. split; [exact Em|].
  destruct (evaluate_Ok_inv _ _ _ Em)
    as (t & l & mw & fm & Et & _ & Emw & _ & _ & _ & _ & _ & _ & -> & _).
  injection Et as <-. injection Emw as <-. vm_compute. reflexivity.
Qed.

Lemma C9_solve_threshold_witness :
  exists self m,
    new_task args_5 g_half = Ok self /\
    evaluate self almost_5 = Ok m /\ correct m == 8 # 10 /\
    solve self almost_5 = Ok false.
Proof.
  destruct evaluate_almost_5 as (m & Em & Hc).
  exists (built_task args_5 (data (initial_cm args_5))), m.
  split; [exact new_task_5|]. split; [exact Em|]. split; [exact Hc|].
  exact (proj2 (C9_solve_threshold _ almost_5) m Em Hc).
Defined.

(** ** The rules as an ordered overlay *)

Lemma clip_wd (lo hi v w : Q) : v == w -> clip lo hi v == clip lo hi w.
Proof. intros H. unfold clip. rewrite H. reflexivity. Qed.

Lemma masked_assign_nth (cm : list Q) (mask : list bool) (vals r : list Q)
  (p : nat) :
  masked_assign cm mask vals = Ok r ->
  nth p r 0 = if nth p mask false then nth p vals 0 else nth p cm 0.
Proof.
  revert mask vals r p.
  induction cm as [|c cm IH]; intros [|m mask] [|v vals] r p; simpl;
    try discriminate.
  - intros H. injection H as <-. destruct p; reflexivity.
  - destruct (masked_assign cm mask vals) as [r'|] eqn:E; simpl;
      [|discriminate].
    intros H. injection H as <-. destruct p as [|p]; simpl; [reflexivity|].
    apply IH. exact E.
Qed.

(** The mask of a rule depends on the tensor through its shape only. *)
Lemma rule_mask_shape (coords : list (list Q)) (cm cm' : ndarray)
  (w : where_t) :
  shape cm = shape cm' -> rule_mask coords cm w = rule_mask coords cm' w.
Proof. intros H. destruct w; simpl; [reflexivity|rewrite H; reflexivity]. Qed.

Lemma apply_rules_app (coords : list (list Q)) (l1 l2 : list (where_t * what_t))
  (cm : ndarray) :
  apply_rules coords cm (l1 ++ l2)
  = (cm' <- apply_rules coords cm l1 ;; apply_rules coords cm' l2).
Proof.
  revert cm. induction l1 as [|r l1 IH]; intros cm; simpl; [reflexivity|].
  destruct (apply_rule coords cm r) as [cm1|e]; simpl; [apply IH|reflexivity].
Qed.

(** Rules that do not select a cell leave it as it is. *)
Lemma apply_rules_unselected (coords : list (list Q))
  (rules : list (where_t * what_t)) (p : nat) :
  forall cm cm',
    apply_rules coords cm rules = Ok cm' ->
    (forall r, In r rules -> nth p (rule_mask coords cm (fst r)) false = false) ->
    nth p (data cm') 0 = nth p (data cm) 0.
Proof.
  induction rules as [|rule rules IH]; intros cm cm' H Hun; simpl in H.
  - injection H as <-. reflexivity.
  - destruct (apply_rule coords cm rule) as [cm1|e] eqn:E; simpl in H;
      [|discriminate].
    pose proof (apply_rule_shape _ _ _ _ E) as [Hs _].
    rewrite (IH cm1 cm' H).
    + unfold apply_rule in E.
      destruct (masked_assign _ _ _) as [d|] eqn:Em; simpl in E;
        [|discriminate].
      injection E as <-. cbn [data].
      rewrite (masked_assign_nth _ _ _ _ p Em).
      rewrite (Hun rule (or_introl eq_refl)). reflexivity.
    + intros r Hr. rewrite (rule_mask_shape coords cm1 cm _ Hs).
      apply Hun. right. exact Hr.
Qed.

Lemma nth_true_lt (mask : list bool) (p : nat) :
  nth p mask false = true -> (p < length mask)%nat.
Proof.
  intros H. destruct (Nat.lt_ge_cases p (length mask)) as [Hlt|Hge];
    [exact Hlt|].
  rewrite nth_overflow in H by exact Hge. discriminate.
Qed.

(** Without noise, the target is the clipped tensor that the rules leave. *)
Lemma target_without_noise (a : init_args) (g : RandomState)
  (self : TargetWeightsTask) (target : ndarray) :
  noise a == 0 -> unit_draws g ->
  new_task a g = Ok self -> self_target self = Some target ->
  exists cm1,
    apply_rules (mgrid (cm_shape a)) (initial_cm a) (funcs a) = Ok cm1 /\
    length (data cm1) = product (cm_shape a) /\
    forall p, (p < product (cm_shape a))%nat ->
      nth p (data target) 0
      = clip (- max_weight a) (max_weight a) (nth p (data cm1) 0).
Proof.
  intros Hn Hg Hnew Ht.
  destruct (new_task_inv a g self Hnew) as [_ (cm1 & d & Er & Ed & Hd & ->)].
  cbn [built_task self_target] in Ht. injection Ht as <-.
  pose proof (apply_rules_shape _ _ _ _ Er) as [Hs Hl].
  rewrite initial_cm_length in Hl.
  assert (Hwf : wf_ndarray cm1)
    by (unfold wf_ndarray; rewrite Hl, Hs; reflexivity).
  rewrite (add_noise_zero a g cm1 Hn Hg Hwf) in Ed. injection Ed as <-.
  exists cm1. split; [exact Er|]. split; [exact Hl|].
  intros p Hp. cbn [data].
  rewrite (nth_indep _ 0 (clip (- max_weight a) (max_weight a) 0))
    by (rewrite length_map; lia).
  apply map_nth.
Qed.

Lemma masked_assign_lengths (cm : list Q) (mask : list bool) (vals r : list Q) :
  masked_assign cm mask vals = Ok r ->
  length mask = length cm /\ length vals = length cm.
Proof.
  revert mask vals r.
  induction cm as [|c cm IH]; intros [|m mask] [|v vals] r; simpl;
    try discriminate; [auto|].
  destruct (masked_assign cm mask vals) as [r'|] eqn:E; simpl; [|discriminate].
  intros _. destruct (IH _ _ _ E). split; congruence.
Qed.

Lemma initial_cm_nth (a : init_args) (p : nat) :
  (p < product (cm_shape a))%nat ->
  nth p (data (initial_cm a)) 0 == default_weight a.
Proof.
  intros Hp. cbn [initial_cm data].
  rewrite (nth_indep _ 0 ((fun one => one * default_weight a) 1))
    by (rewrite length_map, repeat_length; exact Hp).
  rewrite (map_nth (fun one => one * default_weight a)).
  rewrite nth_repeat. ring.
Qed.

(** C6, as amended.  Without noise: where the masks of two rules of the
    list both select a cell and no rule after the later of the two
    selects it, the target holds there the value of the later rule,
    clipped to [-max_weight, max_weight]; a cell that no rule selects
    holds the default weight, clipped likewise. *)
Theorem C6_ordered_overlay (a : init_args) (g : RandomState)
  (self : TargetWeightsTask) (target : ndarray) :
  noise a == 0 -> unit_draws g ->
  new_task a g = Ok self -> self_target self = Some target ->
  (forall pre r1 mid r2 post cm p,
     funcs a = pre ++ r1 :: mid ++ r2 :: post ->
     apply_rules (mgrid (cm_shape a)) (initial_cm a) (pre ++ r1 :: mid)
       = Ok cm ->
     nth p (rule_mask (mgrid (cm_shape a)) cm (fst r1)) false = true ->
     nth p (rule_mask (mgrid (cm_shape a)) cm (fst r2)) false = true ->
     (forall r, In r post ->
        nth p (rule_mask (mgrid (cm_shape a)) cm (fst r)) false = false) ->
     nth p (data target) 0
     == clip (- max_weight a) (max_weight a)
          (nth p (rule_vals (mgrid (cm_shape a)) cm (snd r2)) 0))
  /\
  (forall p,
     (p < product (cm_shape a))%nat ->
     (forall r, In r (funcs a) ->
        nth p (rule_mask (mgrid (cm_shape a)) (initial_cm a) (fst r)) false
        = false) ->
     nth p (data target) 0
     == clip (- max_weight a) (max_weight a) (default_weight a)).
Proof.
  intros Hn Hg Hnew Ht.
  destruct (target_without_noise a g self target Hn Hg Hnew Ht)
    as (cm1 & Er & Hl & Hnth).
  split.
  - intros pre r1 mid r2 post cm p Hf Hpre _ Hm2 Hpost.
    replace (pre ++ r1 :: mid ++ r2 :: post)
      with ((pre ++ r1 :: mid) ++ r2 :: post) in Hf
      by (rewrite <- app_assoc; reflexivity).
    rewrite Hf, apply_rules_app, Hpre in Er. cbn [bind apply_rules] in Er.
    destruct (apply_rule _ cm r2) as [cmB|e] eqn:EB; cbn [bind] in Er;
      [|discriminate].
    pose proof (apply_rule_shape _ _ _ _ EB) as [HsB HlB].
    pose proof (apply_rules_shape _ _ _ _ Er) as [_ Hl1].
    unfold apply_rule in EB.
    destruct (masked_assign _ _ _) as [d|] eqn:Em; cbn [bind] in EB;
      [|discriminate].
    injection EB as <-. cbn [data shape] in *.
    pose proof (masked_assign_lengths _ _ _ _ Em) as [Hlm _].
    pose proof (nth_true_lt _ _ Hm2) as Hp.
    rewrite Hnth by lia.
    rewrite (apply_rules_unselected _ post p _ cm1 Er).
    + cbn [data]. rewrite (masked_assign_nth _ _ _ _ p Em), Hm2. reflexivity.
    + intros r Hr.
      rewrite (rule_mask_shape _ (mk_ndarray (shape cm) d) cm _ eq_refl).
      apply Hpost. exact Hr.
  - intros p Hp Hun. rewrite Hnth by exact Hp.
    rewrite (apply_rules_unselected _ (funcs a) p _ cm1 Er Hun).
    apply clip_wd. apply initial_cm_nth. exact Hp.
Qed.

(** The target of the three overlapping rules: the connections that
    leave the first node hold 2, those that leave the second node hold 3,
    the clipped 5. *)
Lemma overlay_example_target :
  exists self,
    new_task args_overlay g_half = Ok self /\
    self_target self = Some (mk_ndarray [2%nat; 2%nat] [2; 2; 3; 3]).
Proof. eexists. split; vm_compute; reflexivity. Qed.

(** C6, as stated, fails on the three overlapping rules.  The first two
    rules both select the connections that leave the second node, the
    later of the two has the value 2, and the target holds 3 there: the
    third rule selects these connections too, and its value 5 is clipped
    to the maximal weight 3. *)
Lemma C6_counterexample : ~ overlay_as_stated args_overlay g_half.
Proof.
  intros H. destruct overlay_example_target as (self & Hnew & Ht).
  destruct (H self _ Hnew Ht) as [H1 _].
  specialize (H1 [] (from_second_node, WhatNumber 1) []
                (WhereOther, WhatNumber 2) [(from_second_node, WhatNumber 5)]
                (mk_ndarray [2%nat; 2%nat] [0; 0; 1; 1]) 2%nat
                eq_refl eq_refl eq_refl eq_refl).
  vm_compute in H1. discriminate.
Qed.

Lemma C6_ordered_overlay_witness :
  noise args_overlay == 0 /\ unit_draws g_half /\
  exists self target,
    new_task args_overlay g_half = Ok self /\
    self_target self = Some target /\
    nth 2 (data target) 0 == clip (- (3)) 3 (5 * 1).
Proof.
  split; [reflexivity|]. split; [exact g_half_unit|].
  destruct overlay_example_target as (self & Hnew & Ht).
  exists self, (mk_ndarray [2%nat; 2%nat] [2; 2; 3; 3]).
  split; [exact Hnew|]. split; [exact Ht|].
  destruct (C6_ordered_overlay args_overlay g_half self _
              (Qeq_refl 0) g_half_unit Hnew Ht) as [H _].
  apply (H [(from_second_node, WhatNumber 1)] (WhereOther, WhatNumber 2) []
           (from_second_node, WhatNumber 5) []
           (mk_ndarray [2%nat; 2%nat] [2; 2; 2; 2]) 2%nat);
    try reflexivity.
  intros r [].
Defined.

(** * The model of [lstsq] meets the contract of the library

    Where [residuals] is not empty, that is where [evaluate] goes on, the
    [x] of the model solves the normal equations, so it minimises the
    squared norm of [b - a x], and the residual is that squared norm. *)

(** ** Dot products *)

Lemma dot_cons (a b : Q) (u v : list Q) :
  dot (a :: u) (b :: v) == a * b + dot u v.
Proof. unfold dot. cbn [combine map fst snd]. apply Qsum_cons. Qed.

Lemma dot_nil_l (v : list Q) : dot [] v = 0.
Proof. reflexivity. Qed.

Lemma dot_nil_r (u : list Q) : dot u [] = 0.
Proof. destruct u; reflexivity. Qed.

Lemma dot_comm (u v : list Q) : dot u v == dot v u.
Proof.
  revert v. induction u as [|a u IH]; intros [|b v];
    try reflexivity.
  rewrite !dot_cons, IH. ring.
Qed.

Lemma dot_zero_r (u v : list Q) : Forall (fun x => x == 0) v -> dot u v == 0.
Proof.
  intros H. revert u. induction H as [|b v Hb _ IH]; intros [|a u];
    try reflexivity.
  cbv beta in Hb. rewrite dot_cons, Hb, IH. ring.
Qed.

Lemma dot_zero_l (u v : list Q) : Forall (fun x => x == 0) u -> dot u v == 0.
Proof. intros H. rewrite dot_comm. apply dot_zero_r. exact H. Qed.

Lemma sub_cons (a b : Q) (u v : list Q) :
  sub (a :: u) (b :: v) = Qred (a - b) :: sub u v.
Proof. reflexivity. Qed.

(** The dot product is linear in its first argument. *)
Lemma dot_sub_scale (f : Q) (x : list Q) :
  forall r p : list Q,
    length r = length p ->
    dot (sub r (map (fun v => f * v) p)) x == dot r x - f * dot p x.
Proof.
  induction x as [|x0 x IH]; intros r p Hl.
  - rewrite !dot_nil_r. ring.
  - destruct r as [|r0 r]; destruct p as [|p0 p]; try discriminate.
    + rewrite !dot_nil_l. ring.
    + cbn [map]. rewrite sub_cons, !dot_cons, Qred_correct.
      rewrite IH by (simpl in Hl; lia). ring.
Qed.

Lemma dot_eliminate (p r x : list Q) (x0 : Q) :
  length r = length p -> ~ hd 0 p == 0 ->
  dot (eliminate p r) x
  == dot r (x0 :: x) - hd 0 r / hd 0 p * dot p (x0 :: x).
Proof.
  intros Hl Hp. unfold eliminate.
  destruct r as [|r0 r]; destruct p as [|p0 p]; try discriminate.
  - exfalso. apply Hp. reflexivity.
  - cbn [hd map] in *. rewrite sub_cons. cbn [tl].
    rewrite dot_sub_scale by (simpl in Hl; lia).
    rewrite !dot_cons. field. exact Hp.
Qed.

Lemma dot_self_nonneg (u : list Q) : 0 <= dot u u.
Proof.
  induction u as [|a u IH]; [discriminate|].
  rewrite dot_cons. nra.
Qed.

(** A vector whose squared norm is zero is zero. *)
Lemma dot_self_zero (v : list Q) :
  dot v v == 0 -> Forall (fun x => x == 0) v.
Proof.
  induction v as [|a v IH]; intros H; constructor;
    rewrite dot_cons in H; pose proof (dot_self_nonneg v) as Hv.
  - assert (Ha : a * a == 0) by nra.
    apply Qmult_integral in Ha. tauto.
  - apply IH. nra.
Qed.

(** ** Full column rank and the kernel *)

Lemma split_pivot_In (rows others : list (list Q)) (p r : list Q) :
  split_pivot rows = Some (p, others) ->
  In r rows <-> r = p \/ In r others.
Proof.
  revert others. induction rows as [|r' rows IH]; simpl; [discriminate|].
  intros others. destruct (Qeq_bool (hd 0 r') 0).
  - destruct (split_pivot rows) as [[p' others']|]; [|discriminate].
    intros H. injection H as -> <-. specialize (IH others' eq_refl).
    simpl. rewrite IH. intuition congruence.
  - intros H. injection H as -> ->. intuition congruence.
Qed.

Lemma split_pivot_length (rows others : list (list Q)) (p : list Q) :
  split_pivot rows = Some (p, others) -> length rows = S (length others).
Proof.
  revert others. induction rows as [|r' rows IH]; simpl; [discriminate|].
  intros others. destruct (Qeq_bool (hd 0 r') 0).
  - destruct (split_pivot rows) as [[p' others']|]; [|discriminate].
    intros H. injection H as -> <-. simpl. f_equal. apply IH. reflexivity.
  - intros H. injection H as -> ->. reflexivity.
Qed.

(** The only vector that a matrix of full column rank sends to zero is
    the zero vector.  The rows may be longer than the vector: the dot
    product stops with the vector, as the rank stops at column [n]. *)
Lemma rank_full_kernel (n : nat) :
  forall (rows : list (list Q)) (x : list Q),
    Forall (fun r => (n <= length r)%nat) rows ->
    Forall (fun r => length r = length (hd [] rows)) rows ->
    rank n rows = n -> length x = n ->
    (forall r, In r rows -> dot r x == 0) ->
    Forall (fun v => v == 0) x.
Proof.
  induction n as [|n IH]; intros rows x Hlen Hsame Hrk Hx Hker.
  - destruct x; [constructor|discriminate].
  - simpl in Hrk. destruct (split_pivot rows) as [[p others]|] eqn:E.
    + pose proof (split_pivot_Some _ _ _ E) as (Hp & Hin & Hincl).
      rewrite Forall_forall in Hlen, Hsame.
      destruct x as [|x0 x]; [discriminate|].
      assert (Hel : forall r, In r others ->
                dot (eliminate p r) x == 0).
      { intros r Hr.
        rewrite (dot_eliminate p r x x0);
          [|rewrite (Hsame r), (Hsame p); auto|exact Hp].
        rewrite (Hker r), (Hker p) by auto. ring. }
      assert (Hx' : Forall (fun v => v == 0) x).
      { apply (IH (map (eliminate p) others)).
        - apply Forall_map. apply Forall_forall. intros r Hr.
          pose proof (Hlen r (Hincl r Hr)). pose proof (Hlen p Hin).
          assert (length r = length p)
            by (rewrite (Hsame r), (Hsame p); auto).
          destruct (length p) as [|m] eqn:Ep; [lia|].
          rewrite (eliminate_length m); lia.
        - apply Forall_forall. intros r Hr.
          apply in_map_iff in Hr. destruct Hr as (r' & <- & Hr').
          assert (Hall : forall r0, In r0 others ->
                    length (eliminate p r0) = pred (length p)).
          { intros r0 Hr0.
            assert (length r0 = length p)
              by (rewrite (Hsame r0), (Hsame p); auto).
            pose proof (Hlen p Hin).
            destruct (length p) as [|m] eqn:Ep; [lia|].
            rewrite (eliminate_length m); simpl; lia. }
          rewrite (Hall r' Hr').
          destruct others as [|o others']; [destruct Hr'|].
          simpl. symmetry. apply Hall. left. reflexivity.
        - injection Hrk as Hrk. exact Hrk.
        - simpl in Hx. lia.
        - intros r Hr. apply in_map_iff in Hr.
          destruct Hr as (r' & <- & Hr'). apply Hel. exact Hr'. }
      constructor; [|exact Hx'].
      pose proof (Hker p Hin) as Hp0.
      destruct p as [|p0 p]; [exfalso; apply Hp; reflexivity|].
      rewrite dot_cons, (dot_zero_r p x Hx') in Hp0.
      cbn [hd] in Hp. assert (H0 : p0 * x0 == 0) by (rewrite <- Hp0; ring).
      apply Qmult_integral in H0. tauto.
    + pose proof (rank_le n (map (@tl Q) rows)). lia.
Qed.

(** ** The solution of a square system *)

Lemma back_substitute_dot (x : list Q) :
  forall r : list Q,
    length r = S (length x) ->
    back_substitute r x == nth (length x) r 0 - dot r x.
Proof.
  induction x as [|x0 x IH]; intros r Hl.
  - destruct r as [|b r]; [discriminate|].
    simpl. rewrite dot_nil_r. ring.
  - destruct r as [|c r]; [discriminate|].
    cbn [back_substitute length nth]. rewrite dot_cons.
    rewrite IH by (simpl in Hl; lia). ring.
Qed.

Lemma solve_system_length (n : nat) (rows : list (list Q)) :
  length (solve_system n rows) = n.
Proof.
  revert rows. induction n as [|n IH]; intros rows; simpl; [reflexivity|].
  destruct (split_pivot rows) as [[p others]|]; simpl; rewrite IH; reflexivity.
Qed.

(** A system of [n] equations in [n] unknowns whose matrix sends only
    the zero vector to zero is solved by [solve_system]: every row,
    applied to the solution, gives its right-hand side. *)
Lemma solve_system_correct (n : nat) :
  forall rows : list (list Q),
    length rows = n ->
    Forall (fun r => length r = S n) rows ->
    (forall x, length x = n -> (forall r, In r rows -> dot r x == 0) ->
               Forall (fun v => v == 0) x) ->
    forall r, In r rows -> dot r (solve_system n rows) == nth n r 0.
Proof.
  induction n as [|n IH]; intros rows Hn Hlen Hker r Hr.
  - destruct rows; [destruct Hr|discriminate].
  - cbn [solve_system]. destruct (split_pivot rows) as [[p others]|] eqn:E.
    + pose proof (split_pivot_Some _ _ _ E) as (Hp & Hin & Hincl).
      pose proof (split_pivot_length _ _ _ E) as Hlo.
      rewrite Forall_forall in Hlen.
      set (rows' := map (eliminate p) others).
      assert (Hlen' : Forall (fun r => length r = S n) rows').
      { apply Forall_map. apply Forall_forall. intros r' Hr'.
        apply eliminate_length; apply Hlen; auto. }
      assert (Hker' : forall x, length x = n ->
                 (forall r, In r rows' -> dot r x == 0) ->
                 Forall (fun v => v == 0) x).
      { intros x Hx Hx0.
        set (x0 := - dot (tl p) x / hd 0 p).
        assert (Hpx : dot p (x0 :: x) == 0).
        { destruct p as [|p0 p]; [exfalso; apply Hp; reflexivity|].
          rewrite dot_cons. unfold x0. cbn [hd tl] in *. field. exact Hp. }
        assert (Hall : Forall (fun v => v == 0) (x0 :: x)).
        { apply Hker; [simpl; lia|]. intros r' Hr'.
          apply (split_pivot_In _ _ _ r' E) in Hr'.
          destruct Hr' as [->|Hr']; [exact Hpx|].
          assert (Hd : dot (eliminate p r') x
                       == dot r' (x0 :: x)
                          - hd 0 r' / hd 0 p * dot p (x0 :: x)).
          { apply dot_eliminate; [|exact Hp].
            rewrite (Hlen r'), (Hlen p); auto. }
          rewrite Hpx in Hd.
          rewrite (Hx0 (eliminate p r')) in Hd
            by (apply in_map; exact Hr').
          rewrite Qmult_0_r in Hd. lra. }
        inversion Hall; assumption. }
      specialize (IH rows' ltac:(unfold rows'; rewrite length_map; lia)
                    Hlen' Hker').
      set (xs := solve_system n rows') in *.
      assert (Hxs : length xs = n) by apply solve_system_length.
      assert (Hpsol : dot p (Qred (back_substitute (tl p) xs / hd 0 p) :: xs)
                      == nth (S n) p 0).
      { pose proof (Hlen p Hin) as Hlp.
        destruct p as [|p0 p]; [discriminate|].
        cbn [hd tl nth] in *. rewrite dot_cons, Qred_correct.
        rewrite back_substitute_dot by (simpl in Hlp; lia).
        rewrite Hxs. field. exact Hp. }
      apply (split_pivot_In _ _ _ r E) in Hr.
      destruct Hr as [->|Hr]; [exact Hpsol|].
      set (x0 := Qred (back_substitute (tl p) xs / hd 0 p)) in *.
      assert (Hd : dot (eliminate p r) xs
                   == dot r (x0 :: xs) - hd 0 r / hd 0 p * dot p (x0 :: xs)).
      { apply dot_eliminate; [|exact Hp].
        rewrite (Hlen r), (Hlen p); auto. }
      rewrite Hpsol in Hd.
      rewrite (IH (eliminate p r)) in Hd by (apply in_map; exact Hr).
      rewrite (eliminate_nth (S n) n) in Hd
        by (try apply Hlen; auto; lia).
      set (q := hd 0 r / hd 0 p * nth (S n) p 0) in Hd. clearbody q. lra.
    + exfalso. apply split_pivot_None in E. rewrite Forall_forall in E, Hlen.
      assert (Hall : Forall (fun v => v == 0) (1 :: repeat 0 n)).
      { apply Hker; [simpl; rewrite repeat_length; reflexivity|].
        intros r' Hr'. pose proof (Hlen r' Hr') as Hl.
        destruct r' as [|c r']; [discriminate|].
        rewrite dot_cons. rewrite dot_zero_r.
        - specialize (E _ Hr'). cbn [hd] in E. rewrite E. ring.
        - apply Forall_forall. intros v Hv. apply repeat_spec in Hv.
          subst v. reflexivity. }
      inversion Hall as [|? ? H1 _]. discriminate H1.
Qed.

(** ** The normal equations *)

Lemma dot_app_l (l t x : list Q) :
  length l = length x -> dot (l ++ t) x == dot l x.
Proof.
  revert x. induction l as [|a l IH]; intros [|b x] H; try discriminate.
  - simpl. rewrite dot_nil_r. reflexivity.
  - cbn [app]. rewrite !dot_cons, IH by (simpl in H; lia). reflexivity.
Qed.

Lemma dot_map_ext (f g : nat -> Q) (l : list nat) (x : list Q) :
  (forall k, In k l -> f k == g k) -> dot (map f l) x == dot (map g l) x.
Proof.
  revert x. induction l as [|k l IH]; intros x H; [reflexivity|].
  destruct x as [|b x]; [rewrite !dot_nil_r; reflexivity|].
  cbn [map]. rewrite !dot_cons, IH by (intros; apply H; right; assumption).
  rewrite (H k) by (left; reflexivity). reflexivity.
Qed.

Lemma dot_map_linear (c : Q) (f g : nat -> Q) (l : list nat) (x : list Q) :
  dot (map (fun k => c * f k + g k) l) x
  == c * dot (map f l) x + dot (map g l) x.
Proof.
  revert x. induction l as [|k l IH]; intros x.
  - simpl. rewrite !dot_nil_l. ring.
  - destruct x as [|b x]; [rewrite !dot_nil_r; ring|].
    cbn [map]. rewrite !dot_cons, IH. ring.
Qed.

Lemma map_nth_seq (r : list Q) :
  map (fun k => nth k r 0) (seq 0 (length r)) = r.
Proof.
  induction r as [|a r IH]; [reflexivity|].
  cbn [length seq map nth]. f_equal.
  rewrite <- seq_shift, map_map. exact IH.
Qed.

(** [u . (a x)] is [(a^T u) . x]. *)
Lemma gram_apply (N : nat) (x : list Q) :
  forall (a : list (list Q)) (u : list Q),
    Forall (fun r => length r = N) a ->
    dot (map (fun k => dot u (column a k)) (seq 0 N)) x
    == dot u (matvec a x).
Proof.
  unfold matvec. induction a as [|r0 a IH]; intros u Hlen.
  - cbn [map]. rewrite dot_nil_r. apply dot_zero_l.
    apply Forall_map. apply Forall_forall. intros k _.
    unfold column. cbn [map]. rewrite dot_nil_r. reflexivity.
  - destruct u as [|u0 u].
    + rewrite dot_nil_l. apply dot_zero_l.
      apply Forall_map. apply Forall_forall. intros k _. reflexivity.
    + inversion Hlen as [|? ? Hr0 Hlen']; subst.
      cbn [map]. rewrite dot_cons, <- (IH u Hlen').
      rewrite <- (map_nth_seq r0) at 2.
      rewrite <- dot_map_linear. apply dot_map_ext.
      intros k _. unfold column. cbn [map]. apply dot_cons.
Qed.

Lemma normal_equations_rows (a : list (list Q)) (b row : list Q) :
  In row (normal_equations a b) ->
  exists j, (j < ncols a)%nat /\
    row = map (fun k => dot (column a j) (column a k)) (seq 0 (ncols a))
          ++ [dot (column a j) b].
Proof.
  unfold normal_equations. intros H. apply in_map_iff in H.
  destruct H as (j & <- & Hj). apply in_seq in Hj. exists j. split; [lia|].
  reflexivity.
Qed.

Lemma sumsq_dot (l : list Q) : Qsum (map (fun v => v ^ 2) l) == dot l l.
Proof.
  induction l as [|a l IH]; [reflexivity|].
  cbn [map]. rewrite Qsum_cons, dot_cons, IH. simpl. reflexivity.
Qed.

Lemma dot_sub_sub (u : list Q) :
  forall v : list Q,
    length u = length v ->
    dot (sub u v) (sub u v) == dot u u - 2 * dot u v + dot v v.
Proof.
  induction u as [|a u IH]; intros [|b v] H; try discriminate.
  - reflexivity.
  - rewrite sub_cons, !dot_cons, Qred_correct.
    rewrite IH by (simpl in H; lia). ring.
Qed.

(** For a matrix [a] of full column rank, whose rows have the same
    length. *)
Section FullColumnRank.

Variable a : list (list Q).
Hypothesis rows_sized : Forall (fun r => length r = ncols a) a.
Hypothesis rank_full : rank (ncols a) a = ncols a.

(** The matrix [a^T a] sends only the zero vector to zero. *)
Lemma gram_kernel (b x : list Q) :
  length x = ncols a ->
  (forall row, In row (normal_equations a b) -> dot row x == 0) ->
  Forall (fun v => v == 0) x.
Proof.
  intros Hx Hker.
  assert (Hcol : forall j, (j < ncols a)%nat ->
             dot (column a j) (matvec a x) == 0).
  { intros j Hj.
    rewrite <- (gram_apply (ncols a) x a _ rows_sized).
    rewrite <- (dot_app_l _ [dot (column a j) b])
      by (rewrite length_map, length_seq; congruence).
    apply Hker. unfold normal_equations.
    apply (in_map
             (fun j => map (fun k => dot (column a j) (column a k))
                           (seq 0 (ncols a))
                       ++ [dot (column a j) b])).
    apply in_seq. lia. }
  assert (Hax : Forall (fun v => v == 0) (matvec a x)).
  { apply dot_self_zero.
    rewrite <- (gram_apply (ncols a) x a _ rows_sized). apply dot_zero_l.
    apply Forall_map. apply Forall_forall. intros k Hk.
    apply in_seq in Hk. rewrite dot_comm. apply Hcol. lia. }
  apply (rank_full_kernel (ncols a) a x); auto.
  - revert rows_sized. apply Forall_impl. intros r ->. lia.
  - intros r Hr. rewrite Forall_forall in Hax. apply Hax.
    apply (in_map (fun r => dot r x)). exact Hr.
Qed.

(** The [x] of [lstsq] solves the normal equations: the columns of [a]
    are orthogonal to [b - a x]. *)
Lemma lstsq_normal_equations (b : list Q) :
  let x := fst (fst (lstsq a b)) in
  length x = ncols a /\
  forall j, (j < ncols a)%nat ->
    dot (column a j) (matvec a x) == dot (column a j) b.
Proof.
  unfold lstsq. cbn [fst].
  set (N := ncols a). set (x := solve_system N (normal_equations a b)).
  split; [apply solve_system_length|].
  intros j Hj.
  set (row := map (fun k => dot (column a j) (column a k)) (seq 0 N)
              ++ [dot (column a j) b]).
  assert (Hin : In row (normal_equations a b)).
  { unfold normal_equations.
    apply (in_map
             (fun j => map (fun k => dot (column a j) (column a k))
                           (seq 0 (ncols a))
                       ++ [dot (column a j) b])).
    apply in_seq. fold N. lia. }
  assert (Hsol : dot row x == nth N row 0).
  { apply (solve_system_correct N (normal_equations a b)).
    - unfold normal_equations. rewrite length_map, length_seq. reflexivity.
    - apply Forall_forall. intros r Hr.
      apply normal_equations_rows in Hr. destruct Hr as (k & _ & ->).
      rewrite length_app, length_map, length_seq. fold N. simpl. lia.
    - intros y Hy Hker. apply (gram_kernel b y); auto.
    - exact Hin. }
  unfold row in Hsol.
  rewrite dot_app_l in Hsol
    by (rewrite length_map, length_seq; unfold x;
        rewrite solve_system_length; reflexivity).
  rewrite app_nth2 in Hsol by (rewrite length_map, length_seq; lia).
  rewrite length_map, length_seq, Nat.sub_diag in Hsol. cbn [nth] in Hsol.
  rewrite <- Hsol. symmetry. apply gram_apply. exact rows_sized.
Qed.

(** [(a x) . (a w)] is [b . (a w)] for the [x] of [lstsq]. *)
Lemma lstsq_projection (b w : list Q) :
  let x := fst (fst (lstsq a b)) in
  dot (matvec a x) (matvec a w) == dot b (matvec a w).
Proof.
  intros x.
  destruct (lstsq_normal_equations b) as [_ Hne]. fold x in Hne.
  rewrite <- !(gram_apply (ncols a) w a _ rows_sized).
  apply dot_map_ext. intros k Hk. apply in_seq in Hk.
  rewrite dot_comm, Hne by lia. apply dot_comm.
Qed.

End FullColumnRank.

(** ** The least squares *)

(** The contract of [lstsq] where its residual is not empty: the
    residual is the squared norm of [b - a x], and no vector [y] gives a
    smaller squared norm of [b - a y]. *)
Lemma lstsq_contract (a : list (list Q)) (b x res : list Q) (rk : nat) :
  Forall (fun r => length r = ncols a) a ->
  length b = length a ->
  lstsq a b = (x, res, rk) ->
  res <> [] ->
  res = [Qsum (map (fun v => v ^ 2) (sub b (matvec a x)))]
  /\ forall y,
       Qsum (map (fun v => v ^ 2) (sub b (matvec a x)))
       <= Qsum (map (fun v => v ^ 2) (sub b (matvec a y))).
Proof.
  intros Hlen Hb El Hne.
  destruct (lstsq_residuals a b x res rk El) as (Hrk & Hfull & _).
  destruct (Hfull Hne) as [Hrk' Hlt]. subst rk.
  assert (Ex : x = fst (fst (lstsq a b))) by (rewrite El; reflexivity).
  split.
  - unfold lstsq in El. injection El as Hx Hres.
    apply Nat.eqb_eq in Hrk'. apply Nat.ltb_lt in Hlt.
    rewrite Hrk', Hlt in Hres. cbn [andb] in Hres.
    rewrite <- Hres, Hx. reflexivity.
  - intros y. rewrite !sumsq_dot.
    rewrite !dot_sub_sub by (unfold matvec; rewrite length_map; exact Hb).
    pose proof (lstsq_projection a Hlen Hrk' b x) as Kx.
    pose proof (lstsq_projection a Hlen Hrk' b y) as Ky.
    cbv zeta in Kx, Ky. rewrite <- Ex in Kx, Ky.
    pose proof (dot_self_nonneg (sub (matvec a x) (matvec a y))) as Hpos.
    rewrite dot_sub_sub in Hpos
      by (unfold matvec; rewrite !length_map; reflexivity).
    set (A := dot b b) in *.
    set (B := dot b (matvec a x)) in *.
    set (C := dot b (matvec a y)) in *.
    set (D := dot (matvec a x) (matvec a x)) in *.
    set (E := dot (matvec a y) (matvec a y)) in *.
    set (F := dot (matvec a x) (matvec a y)) in *.
    clearbody A B C D E F. lra.
Qed.

(** ** The rank decides the independence of the columns *)

(** A matrix whose rank is below its number of columns sends a vector
    that is not zero to zero. *)
Lemma rank_deficient_kernel (n : nat) :
  forall rows : list (list Q),
    Forall (fun r => length r = n) rows ->
    (rank n rows < n)%nat ->
    exists x, length x = n /\ (forall r, In r rows -> dot r x == 0) /\
              ~ Forall (fun v => v == 0) x.
Proof.
  induction n as [|n IH]; intros rows Hlen Hrk; [lia|].
  simpl in Hrk. destruct (split_pivot rows) as [[p others]|] eqn:E.
  - pose proof (split_pivot_Some _ _ _ E) as (Hp & Hin & Hincl).
    rewrite Forall_forall in Hlen.
    destruct (IH (map (eliminate p) others)) as (x & Hx & Hker & Hnz).
    + apply Forall_map. apply Forall_forall. intros r Hr.
      apply eliminate_length; apply Hlen; auto.
    + lia.
    + set (x0 := - dot (tl p) x / hd 0 p).
      assert (Hpx : dot p (x0 :: x) == 0).
      { destruct p as [|p0 p]; [exfalso; apply Hp; reflexivity|].
        rewrite dot_cons. unfold x0. cbn [hd tl] in *. field. exact Hp. }
      exists (x0 :: x). split; [simpl; lia|]. split.
      * intros r Hr. apply (split_pivot_In _ _ _ r E) in Hr.
        destruct Hr as [->|Hr]; [exact Hpx|].
        assert (Hd : dot (eliminate p r) x
                     == dot r (x0 :: x)
                        - hd 0 r / hd 0 p * dot p (x0 :: x)).
        { apply dot_eliminate; [|exact Hp].
          rewrite (Hlen r), (Hlen p); auto. }
        rewrite Hpx in Hd.
        rewrite (Hker (eliminate p r)) in Hd by (apply in_map; exact Hr).
        rewrite Qmult_0_r in Hd. lra.
      * intros Hall. apply Hnz. inversion Hall; assumption.
  - apply split_pivot_None in E. rewrite Forall_forall in E, Hlen.
    exists (1 :: repeat 0 n). split; [simpl; rewrite repeat_length; lia|].
    split.
    + intros r Hr. pose proof (Hlen r Hr) as Hl.
      destruct r as [|c r]; [discriminate|].
      rewrite dot_cons, dot_zero_r.
      * specialize (E _ Hr). cbn [hd] in E. rewrite E. ring.
      * apply Forall_forall. intros v Hv. apply repeat_spec in Hv.
        subst v. reflexivity.
    + intros Hall. inversion Hall as [|? ? H1 _]. discriminate H1.
Qed.

(** The rank of the model is full exactly when the columns are linearly
    independent. *)
Lemma rank_full_iff (n : nat) (rows : list (list Q)) :
  Forall (fun r => length r = n) rows ->
  rank n rows = n <->
  (forall x, length x = n -> (forall r, In r rows -> dot r x == 0) ->
             Forall (fun v => v == 0) x).
Proof.
  intros Hlen. split.
  - intros Hrk x Hx Hker. apply (rank_full_kernel n rows x); auto.
    + revert Hlen. apply Forall_impl. intros r ->. lia.
    + destruct rows as [|r0 rows]; [constructor|].
      rewrite Forall_forall in Hlen. apply Forall_forall. intros r Hr.
      cbn [hd]. rewrite (Hlen r Hr). symmetry. apply Hlen. left. reflexivity.
  - intros Hker. pose proof (rank_le n rows) as Hle.
    destruct (Nat.eq_dec (rank n rows) n) as [Heq|Hne]; [exact Heq|].
    destruct (rank_deficient_kernel n rows Hlen) as (x & Hx & Hk & Hnz);
      [lia|].
    exfalso. apply Hnz. apply Hker; assumption.
Qed.

(** * Further properties of the constructor, [evaluate] and [solve] *)

(** ** All that a successful [evaluate] has computed *)

Lemma evaluate_Ok_fields (self : TargetWeightsTask) (cm : ndarray) (m : metrics) :
  evaluate self cm = Ok m ->
  exists target locs mw x res0 rest rk,
    self_target self = Some target /\ self_locs self = Some locs /\
    self_max_weight self = Some mw /\
    lstsq locs (data target) = (x, res0 :: rest, rk) /\
    error m = Qsum (map (fun v => v ^ 2) (sub (data cm) (data target))) /\
    diff m = mean (map Qabs (sub (data cm) (data target))) /\
    correct m =
      mean (map (fun d => if Qltb d (mw / 10) then 1 else 0)
                (map Qabs (sub (data cm) (data target)))) /\
    residue m = res0 /\
    diff_lsq m = mean (map Qabs (sub (matvec locs x) (data target))) /\
    err_nonlin m = residue m - error m /\
    diff_nonlin m = diff_lsq m - diff m.
Proof.
  unfold evaluate. intros H.
  destruct (self_target self) as [target|]; cbn [bind getattr] in H;
    [|discriminate].
  destruct (shape_eqb (shape cm) (shape target)) eqn:Es;
    cbn [negb] in H; [|discriminate].
  destruct (self_locs self) as [locs|]; cbn [bind getattr] in H;
    [|discriminate].
  destruct (lstsq locs (data target)) as [[x res] rk] eqn:El.
  destruct res as [|r0 res]; cbn [bind first_item] in H; [discriminate|].
  destruct (self_max_weight self) as [mw|]; cbn [bind getattr] in H;
    [|discriminate].
  destruct (self_fitnessmeasure self) as [fm|]; cbn [bind getattr] in H;
    [|discriminate].
  exists target, locs, mw, x, r0, res, rk.
  destruct (String.eqb fm "absdiff");
    [|destruct (String.eqb fm "sqerr")];
    cbn [bind read_local] in H; try discriminate;
    injection H as <-;
    cbn [error diff correct residue diff_lsq err_nonlin diff_nonlin];
    repeat (split; [first [reflexivity|exact El]|]); reflexivity.
Qed.

(** ** The ranges of the metrics *)

Lemma Qsum_nonneg (l : list Q) : Forall (fun v => 0 <= v) l -> 0 <= Qsum l.
Proof.
  induction 1 as [|v l Hv _ IH]; [discriminate|].
  cbv beta in Hv. rewrite Qsum_cons. lra.
Qed.

Lemma Qsum_le_len (l : list Q) : Forall (fun v => v <= 1) l -> Qsum l <= Qlen l.
Proof.
  induction 1 as [|v l Hv _ IH]; [discriminate|].
  cbv beta in Hv. unfold Qlen in *. simpl length.
  rewrite Nat2Z.inj_succ, <- Z.add_1_r, inject_Z_plus, Qsum_cons.
  change (inject_Z 1) with 1. lra.
Qed.

Lemma mean_nonneg (l : list Q) : Forall (fun v => 0 <= v) l -> 0 <= mean l.
Proof.
  intros H. unfold mean. destruct l as [|v l]; [discriminate|].
  apply Qle_shift_div_l; [apply Qlen_pos; discriminate|].
  rewrite Qmult_0_l. apply Qsum_nonneg. exact H.
Qed.

Lemma mean_le_1 (l : list Q) : Forall (fun v => v <= 1) l -> mean l <= 1.
Proof.
  intros H. unfold mean. destruct l as [|v l]; [discriminate|].
  apply Qle_shift_div_r; [apply Qlen_pos; discriminate|].
  rewrite Qmult_1_l. apply Qsum_le_len. exact H.
Qed.

Lemma squares_nonneg (l : list Q) :
  Forall (fun v => 0 <= v) (map (fun v => v ^ 2) l).
Proof.
  apply Forall_map. apply Forall_forall. intros v _. simpl. nra.
Qed.

Lemma abs_nonneg (l : list Q) : Forall (fun v => 0 <= v) (map Qabs l).
Proof.
  apply Forall_map. apply Forall_forall. intros v _. apply Qabs_nonneg.
Qed.

(** The residual of [lstsq], when there is one, is the squared norm of
    [b - a x]. *)
Lemma lstsq_residual_value (a : list (list Q)) (b x rest : list Q)
  (r0 : Q) (rk : nat) :
  lstsq a b = (x, r0 :: rest, rk) ->
  r0 = Qsum (map (fun v => v ^ 2) (sub b (matvec a x))) /\ rest = [].
Proof.
  unfold lstsq. intros H. injection H as Hx Hres _.
  destruct (Nat.eqb (rank (ncols a) a) (ncols a) && Nat.ltb (ncols a) (length a));
    [|discriminate].
  injection Hres as <- <-. rewrite Hx. auto.
Qed.

(** Whatever the instance and the candidate, the metrics that [evaluate]
    returns are in their ranges: the error, the mean differences and the
    residue are not negative, and [correct] is a fraction. *)
Theorem evaluate_metric_ranges (self : TargetWeightsTask) (cm : ndarray)
  (m : metrics) :
  evaluate self cm = Ok m ->
  0 <= error m /\ 0 <= diff m /\ 0 <= diff_lsq m /\ 0 <= residue m /\
  0 <= correct m /\ correct m <= 1.
Proof.
  intros Em.
  destruct (evaluate_Ok_fields _ _ _ Em)
    as (t & l & mw & x & r0 & rest & rk & _ & _ & _ & El
        & -> & -> & -> & -> & -> & _).
  apply lstsq_residual_value in El. destruct El as [-> _].
  split; [apply Qsum_nonneg, squares_nonneg|].
  split; [apply mean_nonneg, abs_nonneg|].
  split; [apply mean_nonneg, abs_nonneg|].
  split; [apply Qsum_nonneg, squares_nonneg|].
  split.
  - apply mean_nonneg. apply Forall_map. apply Forall_forall. intros v _.
    destruct (Qltb v (mw / 10)); discriminate.
  - apply mean_le_1. apply Forall_map. apply Forall_forall. intros v _.
    destruct (Qltb v (mw / 10)); discriminate.
Qed.

Lemma evaluate_metric_ranges_witness :
  exists m,
    evaluate (built_task args_2x2 (data (initial_cm args_2x2))) (full 4 0)
    = Ok m /\
    0 <= error m /\ 0 <= diff m /\ 0 <= diff_lsq m /\ 0 <= residue m /\
    0 <= correct m /\ correct m <= 1.
Proof.
  destruct (evaluate_2x2_returns (full 4 0) eq_refl) as [m Em].
  exists m. split; [exact Em|].
  exact (evaluate_metric_ranges _ (full 4 0) m Em).
Defined.

(** ** A maximal weight that is not positive *)

(** With a maximal weight of 0 or less no entry counts as correct, since
    no absolute difference is below [max_weight / 10]: [correct] is 0 and
    [solve] is [False] for every candidate, the target included. *)
Theorem nonpositive_max_weight_never_solved (self : TargetWeightsTask)
  (cm : ndarray) (m : metrics) (mw : Q) :
  self_max_weight self = Some mw -> mw <= 0 ->
  evaluate self cm = Ok m ->
  correct m == 0 /\ solve self cm = Ok false.
Proof.
  intros Hmw Hle Em.
  destruct (evaluate_Ok_fields _ _ _ Em)
    as (t & l & mw' & x & r0 & rest & rk & _ & _ & Emw & _
        & _ & _ & Hc & _).
  rewrite Hmw in Emw. injection Emw as <-.
  assert (H0 : correct m == 0).
  { rewrite Hc. unfold mean. rewrite Qsum_zero; [unfold Qdiv; ring|].
    apply Forall_map. apply Forall_map. apply Forall_forall. intros v _.
    assert (E : Qltb (Qabs v) (mw / 10) = false).
    { apply Qltb_ge. pose proof (Qabs_nonneg v) as Hv.
      apply Qle_trans with 0; [|exact Hv].
      apply Qle_shift_div_r; [reflexivity|]. rewrite Qmult_0_l. exact Hle. }
    rewrite E. reflexivity. }
  split; [exact H0|].
  unfold solve. rewrite Em. cbn [bind]. f_equal.
  apply Qltb_ge. rewrite H0. discriminate.
Qed.

(** ** The location table row by row *)

Lemma nth_flat_map_repeat (g : nat -> Q) (n : nat) :
  forall i s a j,
    (i < s)%nat -> (j < n)%nat ->
    nth (i * n + j) (flat_map (fun k => repeat (g k) n) (seq a s)) 0
    = g (a + i)%nat.
Proof.
  induction i as [|i IH]; intros s a j Hi Hj;
    (destruct s as [|s]; [lia|]); cbn [seq flat_map].
  - rewrite app_nth1 by (rewrite repeat_length; lia).
    rewrite Nat.add_0_r. apply nth_repeat_lt. lia.
  - rewrite app_nth2 by (rewrite repeat_length; lia).
    rewrite repeat_length.
    replace (S i * n + j - n)%nat with (i * n + j)%nat by lia.
    rewrite IH by lia. f_equal. lia.
Qed.

Lemma nth_concat_repeat (c : list Q) :
  forall i s j,
    (i < s)%nat -> (j < length c)%nat ->
    nth (i * length c + j) (concat (repeat c s)) 0 = nth j c 0.
Proof.
  induction i as [|i IH]; intros s j Hi Hj;
    (destruct s as [|s]; [lia|]); cbn [repeat concat].
  - rewrite app_nth1 by lia. reflexivity.
  - rewrite app_nth2 by lia.
    replace (S i * length c + j - length c)%nat
      with (i * length c + j)%nat by lia.
    apply IH; lia.
Qed.

(** Every coordinate vector of the grid is a row of the location table. *)
Lemma grid_rows_in_table (dims : list nat) (r : list Q) :
  In r (grid_rows dims) ->
  In r (transpose_reshape (product dims) (mgrid dims)).
Proof.
  unfold transpose_reshape. revert r.
  induction dims as [|s rest IH]; intros r Hr.
  - destruct Hr as [<-|[]]. left. reflexivity.
  - cbn [grid_rows] in Hr. apply in_flat_map in Hr.
    destruct Hr as (i & Hi & Hr). apply in_seq in Hi.
    apply in_map_iff in Hr. destruct Hr as (r' & <- & Hr').
    apply IH in Hr'. apply in_map_iff in Hr'.
    destruct Hr' as (j & <- & Hj). apply in_seq in Hj.
    apply in_map_iff. exists (i * product rest + j)%nat. split.
    + cbn [mgrid map]. f_equal.
      * rewrite (nth_flat_map_repeat (grid_point s) (product rest))
          by lia. reflexivity.
      * rewrite map_map. apply map_ext_in. intros c Hc.
        pose proof (mgrid_axis_length rest) as Hlen.
        rewrite Forall_forall in Hlen. rewrite <- (Hlen c Hc).
        apply nth_concat_repeat; [lia|]. rewrite (Hlen c Hc). lia.
    + apply in_seq. change (product (s :: rest)) with (s * product rest)%nat.
      nia.
Qed.

Lemma spacing_pos (s : nat) : (1 <= s)%nat -> 0 < spacing s.
Proof.
  intros H1.
  unfold spacing. destruct (Nat.eqb_spec s 1) as [_|Hs]; [reflexivity|].
  destruct s as [|[|s]]; [lia|contradiction|].
  apply Qlt_shift_div_l.
  - change 0 with (inject_Z 0). rewrite <- Zlt_Qlt. lia.
  - reflexivity.
Qed.

Lemma grid_rows_nonempty (dims : list nat) :
  Forall (fun s => (2 <= s)%nat) dims -> exists r, In r (grid_rows dims).
Proof.
  induction 1 as [|s rest Hs _ [r Hr]].
  - exists []. left. reflexivity.
  - exists (grid_point s 0 :: r). cbn [grid_rows]. apply in_flat_map.
    exists 0%nat. split; [apply in_seq; lia|]. apply in_map. exact Hr.
Qed.

(** On a grid whose every axis has two points or more, the coordinate
    vectors send only the zero vector to zero. *)
Lemma grid_rows_kernel (dims : list nat) :
  Forall (fun s => (2 <= s)%nat) dims ->
  forall x, length x = length dims ->
    (forall r, In r (grid_rows dims) -> dot r x == 0) ->
    Forall (fun v => v == 0) x.
Proof.
  induction 1 as [|s rest Hs Hrest IH]; intros x Hx Hker.
  - destruct x; [constructor|discriminate].
  - destruct x as [|x0 x]; [discriminate|].
    destruct (grid_rows_nonempty rest Hrest) as [r' Hr'].
    assert (Hrow : forall i r, (i < s)%nat -> In r (grid_rows rest) ->
               grid_point s i * x0 + dot r x == 0).
    { intros i r Hi Hr. rewrite <- dot_cons. apply Hker.
      cbn [grid_rows]. apply in_flat_map. exists i.
      split; [apply in_seq; lia|]. apply in_map. exact Hr. }
    assert (H0 : x0 == 0).
    { pose proof (Hrow 0%nat r' ltac:(lia) Hr') as E0.
      pose proof (Hrow 1%nat r' ltac:(lia) Hr') as E1.
      unfold grid_point in E0, E1.
      change (inject_Z (Z.of_nat 0)) with 0 in E0.
      change (inject_Z (Z.of_nat 1)) with 1 in E1.
      pose proof (spacing_pos s ltac:(lia)) as Hp.
      assert (E : spacing s * x0
                  == ((1 * spacing s + -1) * x0 + dot r' x)
                     - ((0 * spacing s + -1) * x0 + dot r' x)) by ring.
      rewrite E1, E0 in E.
      apply Qmult_integral in E. destruct E as [E|E]; [|exact E].
      rewrite E in Hp. discriminate Hp. }
    constructor; [exact H0|].
    apply IH; [simpl in Hx; lia|].
    intros r Hr. pose proof (Hrow 0%nat r ltac:(lia) Hr) as E.
    rewrite H0 in E. lra.
Qed.

Lemma product_gt_length (dims : list nat) :
  Forall (fun s => (2 <= s)%nat) dims -> (length dims < product dims)%nat.
Proof.
  induction 1 as [|s rest Hs _ IH]; [simpl; lia|].
  change (product (s :: rest)) with (s * product rest)%nat. simpl length. nia.
Qed.

Lemma built_locs_rows (a : init_args) :
  Forall (fun r => length r = length (cm_shape a)) (built_locs a).
Proof.
  unfold built_locs, transpose_reshape. apply Forall_map.
  apply Forall_forall. intros f _. rewrite length_map. apply mgrid_length.
Qed.

(** The location table of a substrate whose every dimension is 2 or
    more has full column rank and more rows than columns. *)
Lemma built_locs_full_rank (a : init_args) :
  Forall (fun s => (2 <= s)%nat) (substrate_shape a) ->
  rank (ncols (built_locs a)) (built_locs a) = ncols (built_locs a)
  /\ (ncols (built_locs a) < length (built_locs a))%nat.
Proof.
  intros Hs.
  assert (Hdims : Forall (fun s => (2 <= s)%nat) (cm_shape a))
    by (unfold cm_shape; apply Forall_app; split; exact Hs).
  pose proof (product_gt_length _ Hdims) as Hlt.
  pose proof (built_locs_rows a) as Hrows.
  pose proof (built_locs_length a) as Hlen.
  assert (Hn : ncols (built_locs a) = length (cm_shape a)).
  { unfold ncols. destruct (built_locs a) as [|r0 rows];
      [simpl in Hlen; lia|].
    inversion Hrows; assumption. }
  rewrite Hn. split; [|lia].
  apply rank_full_iff; [exact Hrows|].
  intros x Hx Hker. apply (grid_rows_kernel _ Hdims x Hx).
  intros r Hr. apply Hker. apply grid_rows_in_table. exact Hr.
Qed.

(** ** The substrates on which [evaluate] returns *)

Lemma small_dimension (shape_ : list nat) :
  Forall (fun s => (1 <= s)%nat) shape_ ->
  ~ Forall (fun s => (2 <= s)%nat) shape_ -> In 1%nat shape_.
Proof.
  induction 1 as [|s rest Hs _ IH]; intros Hn.
  - exfalso. apply Hn. constructor.
  - destruct (Nat.eq_dec s 1) as [->|Hne]; [left; reflexivity|].
    right. apply IH. intros Hall. apply Hn. constructor; [lia|exact Hall].
Qed.

(** For a fitness measure that the program knows, [evaluate] returns on
    the candidates of the shape of the target exactly when no dimension
    of the substrate has size 1. *)
Theorem evaluate_returns_iff (a : init_args) (g : RandomState)
  (self : TargetWeightsTask) (target cm : ndarray) :
  substrate_shape a <> [] ->
  Forall (fun s => (1 <= s)%nat) (substrate_shape a) ->
  fitnessmeasure a = "absdiff"%string \/ fitnessmeasure a = "sqerr"%string ->
  new_task a g = Ok self ->
  self_target self = Some target ->
  shape cm = shape target ->
  (exists m, evaluate self cm = Ok m)
  <-> Forall (fun s => (2 <= s)%nat) (substrate_shape a).
Proof.
  intros _ Hpos Hmode Hnew Ht Hs.
  destruct (new_task_inv a g self Hnew) as [_ (cm1 & d & _ & _ & _ & ->)].
  split.
  - intros [m Em].
    destruct (Forall_dec (fun s => (2 <= s)%nat)
                (fun s => le_dec 2 s) (substrate_shape a)) as [H|H];
      [exact H|].
    exfalso. apply (built_locs_deficient a (small_dimension _ Hpos H)).
    destruct (evaluate_Ok_inv _ _ _ Em)
      as (t & l & mw & fm & _ & El & _ & _ & _ & Hrk & Hlt & _).
    cbn [built_task self_locs] in El. injection El as <-. auto.
  - intros Hall. destruct (built_locs_full_rank a Hall) as [Hrk Hlt].
    apply (evaluate_returns _ target cm (built_locs a) (max_weight a)
             (fitnessmeasure a)); auto.
Qed.

Lemma evaluate_returns_iff_witness :
  (exists m,
     evaluate (built_task args_2x2 (data (initial_cm args_2x2))) (full 4 0)
     = Ok m)
  <-> Forall (fun s => (2 <= s)%nat) (substrate_shape args_2x2).
Proof.
  apply (evaluate_returns_iff args_2x2 g_half _ (full 4 1) (full 4 0)).
  - discriminate.
  - repeat constructor.
  - left. reflexivity.
  - exact (new_task_2x2 g_half g_half_unit).
  - reflexivity.
  - reflexivity.
Defined.

(** ** The target solves its own task *)

(** For a positive maximal weight, on a substrate without a dimension
    of size 1 and with a fitness measure that the program knows, [solve]
    on the target itself returns [True]. *)
Theorem solve_target (a : init_args) (g : RandomState)
  (self : TargetWeightsTask) (target : ndarray) :
  0 < max_weight a ->
  Forall (fun s => (2 <= s)%nat) (substrate_shape a) ->
  fitnessmeasure a = "absdiff"%string \/ fitnessmeasure a = "sqerr"%string ->
  new_task a g = Ok self ->
  self_target self = Some target ->
  solve self target = Ok true.
Proof.
  intros Hmw Hall Hmode Hnew Ht.
  assert (Hret : exists m, evaluate self target = Ok m).
  { destruct (new_task_inv a g self Hnew) as [_ (cm1 & d & _ & _ & _ & E)].
    destruct (built_locs_full_rank a Hall) as [Hrk Hlt].
    apply (evaluate_returns _ target target (built_locs a) (max_weight a)
             (fitnessmeasure a)); subst self; auto. }
  destruct Hret as [m Em].
  destruct (evaluate_target_metrics a g self target m Hmw Hnew Ht Em)
    as (_ & _ & Hc).
  unfold solve. rewrite Em. cbn [bind]. f_equal.
  apply Qltb_lt. rewrite Hc. reflexivity.
Qed.

Lemma solve_target_witness :
  exists self target,
    new_task args_2x2 g_half = Ok self /\
    self_target self = Some target /\
    solve self target = Ok true.
Proof.
  exists (built_task args_2x2 (data (initial_cm args_2x2))), (full 4 1).
  split; [exact (new_task_2x2 g_half g_half_unit)|].
  split; [reflexivity|].
  apply (solve_target args_2x2 g_half).
  - reflexivity.
  - repeat constructor.
  - left. reflexivity.
  - exact (new_task_2x2 g_half g_half_unit).
  - reflexivity.
Defined.

Lemma nonpositive_max_weight_never_solved_witness :
  exists self target m,
    new_task args_zero_weight g_half = Ok self /\
    self_target self = Some target /\
    evaluate self target = Ok m /\
    correct m == 0 /\ solve self target = Ok false.
Proof.
  assert (Hnew : new_task args_zero_weight g_half
                 = Ok (built_task args_zero_weight
                         (data (initial_cm args_zero_weight))))
    by (apply new_task_no_rules;
        [reflexivity|reflexivity|exact g_half_unit]).
  destruct (built_locs_full_rank args_zero_weight) as [Hrk Hlt];
    [repeat constructor|].
  destruct (evaluate_returns
              (built_task args_zero_weight
                 (data (initial_cm args_zero_weight)))
              (full 4 0) (full 4 0) (built_locs args_zero_weight) 0
              "absdiff") as [m Em]; auto.
  eexists. exists (full 4 0), m.
  split; [exact Hnew|]. split; [reflexivity|]. split; [exact Em|].
  apply (nonpositive_max_weight_never_solved _ (full 4 0) m 0);
    [reflexivity|discriminate|exact Em].
Defined.

(** ** The candidates at distance zero *)

Lemma Qsum_zero_inv (l : list Q) :
  Forall (fun v => 0 <= v) l -> Qsum l == 0 -> Forall (fun v => v == 0) l.
Proof.
  induction 1 as [|v l Hv Hl IH]; intros H; [constructor|].
  cbv beta in Hv. rewrite Qsum_cons in H.
  pose proof (Qsum_nonneg l Hl) as Hs.
  constructor; [lra|]. apply IH. lra.
Qed.

Lemma sub_zero_iff (u : list Q) :
  forall v, length u = length v ->
    (Forall (fun x => x == 0) (sub u v) <-> Forall2 Qeq u v).
Proof.
  induction u as [|a u IH]; intros [|b v] H; try discriminate.
  - split; constructor.
  - rewrite sub_cons. simpl in H.
    split; intros K.
    + apply Forall_cons_iff in K. destruct K as [K1 K2]. constructor.
      * rewrite Qred_correct in K1. lra.
      * apply IH; [lia|assumption].
    + inversion K as [|? ? ? ? K1 K2]; subst. constructor.
      * cbv beta. rewrite Qred_correct. lra.
      * apply IH; [lia|assumption].
Qed.

Lemma Qabs_zero_iff (v : Q) : Qabs v == 0 <-> v == 0.
Proof.
  split; intros H.
  - destruct (Qlt_le_dec v 0) as [Hn|Hp].
    + rewrite Qabs_neg in H by lra. lra.
    + rewrite Qabs_pos in H by exact Hp. exact H.
  - rewrite H. reflexivity.
Qed.

Lemma abs_sum_zero_iff (s : list Q) :
  Qsum (map Qabs s) == 0 <-> Forall (fun x => x == 0) s.
Proof.
  split; intros H.
  - apply Qsum_zero_inv in H; [|apply abs_nonneg].
    rewrite Forall_map in H. revert H. apply Forall_impl.
    intros v Hv. apply Qabs_zero_iff. exact Hv.
  - apply Qsum_zero. apply Forall_map. revert H. apply Forall_impl.
    intros v Hv. apply Qabs_zero_iff. exact Hv.
Qed.

Lemma sq_sum_zero_iff (s : list Q) :
  Qsum (map (fun v => v ^ 2) s) == 0 <-> Forall (fun x => x == 0) s.
Proof.
  rewrite sumsq_dot. split; [apply dot_self_zero|apply dot_zero_r].
Qed.

Lemma mean_zero_iff (l : list Q) : l <> [] -> (mean l == 0 <-> Qsum l == 0).
Proof.
  intros Hne. pose proof (Qlen_pos l Hne) as Hp. unfold mean.
  set (n := Qlen l) in *. set (s := Qsum l). clearbody n s.
  split; intros H.
  - assert (E : s == s / n * n) by (field; lra). rewrite E, H. ring.
  - rewrite H. unfold Qdiv. ring.
Qed.

(** The buffers of a well-formed candidate on which [evaluate] returns
    and of the target have the same length. *)
Lemma candidate_length (a : init_args) (d : list Q) (cm : ndarray)
  (m : metrics) :
  length d = product (cm_shape a) ->
  wf_ndarray cm ->
  evaluate (built_task a d) cm = Ok m ->
  length (data cm)
  = length (map (clip (- max_weight a) (max_weight a)) d).
Proof.
  intros Hd Hwf Em.
  destruct (evaluate_Ok_inv _ _ _ Em)
    as (t & l & mw & fm & Et & _ & _ & _ & Hs & _).
  cbn [built_task self_target] in Et. injection Et as <-. cbn [shape] in Hs.
  rewrite length_map, Hd, Hwf, Hs. unfold cm_shape. rewrite product_app.
  unfold product. simpl. lia.
Qed.

(** On a constructed task, the mean difference of a candidate is 0
    exactly when every weight of the candidate is the weight of the
    target, and the squared error is 0 in the same cases. *)
Theorem diff_zero_iff (a : init_args) (g : RandomState)
  (self : TargetWeightsTask) (target cm : ndarray) (m : metrics) :
  new_task a g = Ok self ->
  self_target self = Some target ->
  wf_ndarray cm ->
  evaluate self cm = Ok m ->
  (diff m == 0 <-> Forall2 Qeq (data cm) (data target)) /\
  (error m == 0 <-> diff m == 0).
Proof.
  intros Hnew Ht Hwf Em.
  destruct (new_task_inv a g self Hnew) as [_ (cm1 & d & _ & _ & Hd & ->)].
  cbn [built_task self_target] in Ht. injection Ht as <-.
  pose proof (diffs_nonempty a d cm m Hd Hwf Em) as Hne.
  pose proof (candidate_length a d cm m Hd Hwf Em) as Hlen.
  destruct (evaluate_Ok_inv _ _ _ Em)
    as (t & l & mw & fm & Et & _ & _ & _ & _ & _ & _ & -> & -> & _).
  cbn [built_task self_target] in Et. injection Et as <-. cbn [data] in *.
  rewrite (mean_zero_iff _ Hne), abs_sum_zero_iff, sq_sum_zero_iff.
  split; [apply sub_zero_iff; exact Hlen|reflexivity].
Qed.

Lemma diff_zero_iff_witness :
  exists m,
    evaluate (built_task args_2x2 (data (initial_cm args_2x2))) (full 4 0)
    = Ok m /\
    (diff m == 0 <-> Forall2 Qeq (data (full 4 0)) (data (full 4 1))) /\
    (error m == 0 <-> diff m == 0).
Proof.
  destruct (evaluate_2x2_returns (full 4 0) eq_refl) as [m Em].
  exists m. split; [exact Em|].
  exact (diff_zero_iff args_2x2 g_half _ (full 4 1) (full 4 0) m
           (new_task_2x2 g_half g_half_unit) eq_refl (wf_full 4 0) Em).
Defined.

(** ** The fitness of the mode [sqerr] *)

Lemma inv_succ_range (e : Q) : 0 <= e -> 0 < 1 / (1 + e) /\ 1 / (1 + e) <= 1.
Proof.
  intros He. split.
  - apply Qlt_shift_div_l; lra.
  - apply Qle_shift_div_r; lra.
Qed.

Lemma inv_succ_decreasing (e1 e2 : Q) :
  0 <= e1 -> e1 < e2 -> 1 / (1 + e2) < 1 / (1 + e1).
Proof.
  intros H1 H2.
  apply Qlt_shift_div_l; [lra|].
  assert (E : 1 / (1 + e2) * (1 + e1) == (1 + e1) / (1 + e2))
    by (field; lra).
  rewrite E. apply Qlt_shift_div_r; lra.
Qed.

Lemma evaluate_sqerr_fitness (self : TargetWeightsTask) (cm : ndarray)
  (m : metrics) :
  self_fitnessmeasure self = Some "sqerr"%string ->
  evaluate self cm = Ok m ->
  fitness m = Q2R (1 / (1 + error m)) /\ 0 <= error m.
Proof.
  intros Hfm Em.
  destruct (evaluate_Ok_inv _ _ _ Em)
    as (t & l & mw & fm & _ & _ & _ & Efm & _ & _ & _ & He & _ & _ & Hfit).
  rewrite Hfm in Efm. injection Efm as <-.
  destruct Hfit as [[Hx _]|[_ Hf]]; [discriminate|].
  split; [exact Hf|]. rewrite He. apply Qsum_nonneg, squares_nonneg.
Qed.

(** In the mode [sqerr] the fitness is above 0 and at most 1, it is 1 for
    a candidate without error, and of two candidates the one with the
    larger squared error has the smaller fitness. *)
Theorem sqerr_fitness_bounds (self : TargetWeightsTask) (cm1 cm2 : ndarray)
  (m1 m2 : metrics) :
  self_fitnessmeasure self = Some "sqerr"%string ->
  evaluate self cm1 = Ok m1 ->
  evaluate self cm2 = Ok m2 ->
  (0 < fitness m1 <= 1)%R /\
  (error m1 == 0 -> fitness m1 = 1%R) /\
  (error m1 < error m2 -> (fitness m2 < fitness m1)%R).
Proof.
  intros Hfm E1 E2.
  destruct (evaluate_sqerr_fitness self cm1 m1 Hfm E1) as [-> H1].
  destruct (evaluate_sqerr_fitness self cm2 m2 Hfm E2) as [-> H2].
  destruct (inv_succ_range (error m1) H1) as [Hlo Hhi].
  apply Qlt_Rlt in Hlo. apply Qle_Rle in Hhi.
  replace (Q2R 0) with 0%R in Hlo by (unfold Q2R; simpl; lra).
  replace (Q2R 1) with 1%R in Hhi by (unfold Q2R; simpl; lra).
  split; [split; assumption|]. split.
  - intros H0.
    replace 1%R with (Q2R 1) by (unfold Q2R; simpl; lra).
    apply Qeq_eqR. rewrite H0. reflexivity.
  - intros Hlt. apply Qlt_Rlt. apply inv_succ_decreasing; assumption.
Qed.

(** ** The fitness of the mode [absdiff], continued *)

(** In the mode [absdiff] the fitness is above 0 and at most 2 to the
    power [2 * max_weight], and it reaches that bound exactly for the
    candidates whose mean difference is 0. *)
Theorem absdiff_fitness_range (a : init_args) (g : RandomState)
  (self : TargetWeightsTask) (cm : ndarray) (m : metrics) :
  new_task a g = Ok self ->
  fitnessmeasure a = "absdiff"%string ->
  wf_ndarray cm ->
  evaluate self cm = Ok m ->
  (0 < fitness m <= Rpower 2 (Q2R (2 * max_weight a)))%R /\
  (fitness m = Rpower 2 (Q2R (2 * max_weight a)) <-> diff m == 0).
Proof.
  intros Hnew Hmode Hwf Em.
  rewrite (evaluate_absdiff_fitness a g self cm m Hnew Hmode Hwf Em).
  assert (Hd : 0 <= diff m).
  { destruct (evaluate_Ok_inv _ _ _ Em)
      as (t & l & mw & fm & _ & _ & _ & _ & _ & _ & _ & _ & -> & _).
    apply mean_nonneg, abs_nonneg. }
  assert (Hzero : diff m == 0 ->
            Rpower 2 (Q2R (2 * max_weight a - diff m))
            = Rpower 2 (Q2R (2 * max_weight a))).
  { intros H0. f_equal. apply Qeq_eqR. rewrite H0. ring. }
  assert (Hpos : 0 < diff m ->
            (Rpower 2 (Q2R (2 * max_weight a - diff m))
             < Rpower 2 (Q2R (2 * max_weight a)))%R).
  { intros H0. apply Rpower_lt; [lra|]. apply Qlt_Rlt. lra. }
  split; [split|split].
  - unfold Rpower. apply exp_pos.
  - destruct (Qlt_le_dec 0 (diff m)) as [H0|H0].
    + apply Rlt_le. apply Hpos. exact H0.
    + rewrite Hzero by (apply Qle_antisym; assumption). apply Rle_refl.
  - intros E. destruct (Qlt_le_dec 0 (diff m)) as [H0|H0].
    + apply Hpos in H0. rewrite E in H0. exfalso. lra.
    + apply Qle_antisym; assumption.
  - exact Hzero.
Qed.

Lemma absdiff_fitness_range_witness :
  exists m,
    evaluate (built_task args_2x2 (data (initial_cm args_2x2))) (full 4 0)
    = Ok m /\
    (0 < fitness m <= Rpower 2 (Q2R (2 * 3)))%R /\
    (fitness m = Rpower 2 (Q2R (2 * 3)) <-> diff m == 0).
Proof.
  destruct (evaluate_2x2_returns (full 4 0) eq_refl) as [m Em].
  exists m. split; [exact Em|].
  exact (absdiff_fitness_range args_2x2 g_half _ (full 4 0) m
           (new_task_2x2 g_half g_half_unit) eq_refl (wf_full 4 0) Em).
Defined.

(** ** What [evaluate] computes from the task alone *)

(** The residue and the mean difference of the least-squares fit are
    those of the target: two candidates of one task get the same, and
    their [err_nonlin] differ as their errors do. *)
Theorem residue_of_the_task (self : TargetWeightsTask) (cm1 cm2 : ndarray)
  (m1 m2 : metrics) :
  evaluate self cm1 = Ok m1 ->
  evaluate self cm2 = Ok m2 ->
  residue m1 = residue m2 /\ diff_lsq m1 = diff_lsq m2 /\
  err_nonlin m1 + error m1 == err_nonlin m2 + error m2.
Proof.
  intros E1 E2.
  destruct (evaluate_Ok_fields _ _ _ E1)
    as (t & l & mw & x & r0 & rest & rk & Et & Elo & _ & El
        & _ & _ & _ & Hr1 & Hd1 & Hn1 & _).
  destruct (evaluate_Ok_fields _ _ _ E2)
    as (t' & l' & mw' & x' & r0' & rest' & rk' & Et' & Elo' & _ & El'
        & _ & _ & _ & Hr2 & Hd2 & Hn2 & _).
  rewrite Et in Et'. injection Et' as <-.
  rewrite Elo in Elo'. injection Elo' as <-.
  rewrite El in El'. injection El' as <- <- _ _.
  assert (Hr : residue m1 = residue m2) by congruence.
  split; [exact Hr|]. split; [congruence|].
  rewrite Hn1, Hn2, Hr. ring.
Qed.

Lemma residue_of_the_task_witness :
  exists m1 m2,
    evaluate (built_task args_2x2 (data (initial_cm args_2x2))) (full 4 0)
    = Ok m1 /\
    evaluate (built_task args_2x2 (data (initial_cm args_2x2))) (full 4 1)
    = Ok m2 /\
    residue m1 = residue m2 /\ diff_lsq m1 = diff_lsq m2 /\
    err_nonlin m1 + error m1 == err_nonlin m2 + error m2.
Proof.
  destruct (evaluate_2x2_returns (full 4 0) eq_refl) as [m1 E1].
  destruct (evaluate_2x2_returns (full 4 1) eq_refl) as [m2 E2].
  exists m1, m2. split; [exact E1|]. split; [exact E2|].
  exact (residue_of_the_task _ (full 4 0) (full 4 1) m1 m2 E1 E2).
Defined.

Lemma evaluate_sqerr_returns (cm : ndarray) :
  shape cm = [4%nat; 4%nat] ->
  exists m,
    evaluate (built_task args_sqerr (data (initial_cm args_sqerr))) cm = Ok m.
Proof.
  intros Hs.
  destruct (built_locs_full_rank args_sqerr) as [Hrk Hlt];
    [repeat constructor|].
  apply (evaluate_returns _ (full 4 1) cm (built_locs args_sqerr) 3 "sqerr");
    auto.
Qed.

Lemma sqerr_fitness_bounds_witness :
  exists m1 m2,
    evaluate (built_task args_sqerr (data (initial_cm args_sqerr))) (full 4 1)
    = Ok m1 /\
    evaluate (built_task args_sqerr (data (initial_cm args_sqerr))) (full 4 0)
    = Ok m2 /\
    (0 < fitness m1 <= 1)%R /\
    (error m1 == 0 -> fitness m1 = 1%R) /\
    (error m1 < error m2 -> (fitness m2 < fitness m1)%R).
Proof.
  destruct (evaluate_sqerr_returns (full 4 1) eq_refl) as [m1 E1].
  destruct (evaluate_sqerr_returns (full 4 0) eq_refl) as [m2 E2].
  exists m1, m2. split; [exact E1|]. split; [exact E2|].
  exact (sqerr_fitness_bounds
           (built_task args_sqerr (data (initial_cm args_sqerr)))
           (full 4 1) (full 4 0) m1 m2 eq_refl E1 E2).
Defined.

Lemma absdiff_fitness_decreasing_witness :
  exists m1 m2,
    evaluate (built_task args_2x2 (data (initial_cm args_2x2))) (full 4 1)
    = Ok m1 /\
    evaluate (built_task args_2x2 (data (initial_cm args_2x2))) (full 4 0)
    = Ok m2 /\
    diff m1 < diff m2 /\ (fitness m2 < fitness m1)%R.
Proof.
  destruct (evaluate_2x2_returns (full 4 1) eq_refl) as [m1 E1].
  destruct (evaluate_2x2_returns (full 4 0) eq_refl) as [m2 E2].
  assert (Hlt : diff m1 < diff m2).
  { destruct (evaluate_Ok_inv _ _ _ E1)
      as (t & l & mw & fm & Et & _ & _ & _ & _ & _ & _ & _ & -> & _).
    destruct (evaluate_Ok_inv _ _ _ E2)
      as (t' & l' & mw' & fm' & Et' & _ & _ & _ & _ & _ & _ & _ & -> & _).
    cbn [built_task self_target] in Et, Et'.
    injection Et as <-. injection Et' as <-. vm_compute. reflexivity. }
  exists m1, m2. split; [exact E1|]. split; [exact E2|].
  split; [exact Hlt|].
  exact (absdiff_fitness_decreasing args_2x2 g_half _ (full 4 1) (full 4 0)
           m1 m2 (new_task_2x2 g_half g_half_unit) eq_refl
           (wf_full 4 1) (wf_full 4 0) E1 E2 Hlt).
Defined.

(** ** The residue as the least error of a linear candidate *)

Lemma built_locs_ncols (a : init_args) :
  built_locs a <> [] -> ncols (built_locs a) = length (cm_shape a).
Proof.
  intros Hne. pose proof (built_locs_rows a) as Hrows. unfold ncols.
  destruct (built_locs a) as [|r0 rows]; [contradiction|].
  inversion Hrows; assumption.
Qed.

Lemma sumsq_sub_sym (u v : list Q) :
  length u = length v ->
  Qsum (map (fun x => x ^ 2) (sub u v))
  == Qsum (map (fun x => x ^ 2) (sub v u)).
Proof.
  intros H. rewrite !sumsq_dot, (dot_sub_sub u v H).
  rewrite (dot_sub_sub v u (eq_sym H)), (dot_comm v u). ring.
Qed.

(** The residue is the least squared error that a candidate whose
    weights are a linear function of the coordinates can have: for such a
    candidate [error] is at least [residue], and [err_nonlin] is not
    positive. *)
Theorem residue_least_linear_error (a : init_args) (g : RandomState)
  (self : TargetWeightsTask) (locs : list (list Q)) (cm : ndarray)
  (w : list Q) (m : metrics) :
  new_task a g = Ok self ->
  self_locs self = Some locs ->
  data cm = matvec locs w ->
  evaluate self cm = Ok m ->
  residue m <= error m /\ err_nonlin m <= 0.
Proof.
  intros Hnew Hl Hcm Em.
  destruct (new_task_inv a g self Hnew) as [_ (cm1 & d & _ & _ & Hd & ->)].
  cbn [built_task self_locs] in Hl. injection Hl as <-.
  destruct (evaluate_Ok_inv _ _ _ Em)
    as (t0 & l0 & mw0 & fm0 & _ & El0 & _ & _ & _ & _ & Hlt & _).
  cbn [built_task self_locs] in El0. injection El0 as <-.
  destruct (evaluate_Ok_fields _ _ _ Em)
    as (t & l & mw & x & r0 & rest & rk & Et & El & _ & Els
        & He & _ & _ & Hr & _ & Hn & _).
  cbn [built_task self_target self_locs] in Et, El.
  injection Et as <-. injection El as <-. cbn [data] in *.
  set (b := map (clip (- max_weight a) (max_weight a)) d) in *.
  assert (Hb : length b = length (built_locs a))
    by (unfold b; rewrite length_map, Hd, built_locs_length; reflexivity).
  assert (Hrows : Forall (fun r => length r = ncols (built_locs a))
                    (built_locs a)).
  { rewrite built_locs_ncols; [apply built_locs_rows|].
    intros E. rewrite E in Hlt. simpl in Hlt. lia. }
  destruct (lstsq_contract (built_locs a) b x (r0 :: rest) rk Hrows Hb Els)
    as [Hres Hmin]; [discriminate|].
  injection Hres as Hr0 _.
  assert (Hle : residue m <= error m).
  { rewrite Hr, Hr0, He, Hcm.
    rewrite (sumsq_sub_sym (matvec (built_locs a) w) b)
      by (unfold matvec; rewrite length_map; symmetry; exact Hb).
    apply Hmin. }
  split; [exact Hle|]. rewrite Hn. lra.
Qed.

Lemma residue_least_linear_error_witness :
  exists m,
    evaluate (built_task args_2x2 (data (initial_cm args_2x2)))
      (mk_ndarray [4%nat; 4%nat]
         (matvec (built_locs args_2x2) [1; 0; 0; 0]))
    = Ok m /\
    residue m <= error m /\ err_nonlin m <= 0.
Proof.
  destruct (evaluate_2x2_returns
              (mk_ndarray [4%nat; 4%nat]
                 (matvec (built_locs args_2x2) [1; 0; 0; 0])) eq_refl)
    as [m Em].
  exists m. split; [exact Em|].
  exact (residue_least_linear_error args_2x2 g_half
           (built_task args_2x2 (data (initial_cm args_2x2)))
           (built_locs args_2x2)
           (mk_ndarray [4%nat; 4%nat]
              (matvec (built_locs args_2x2) [1; 0; 0; 0]))
           [1; 0; 0; 0] m (new_task_2x2 g_half g_half_unit)
           eq_refl eq_refl Em).
Defined.

(** ** The constructor: what it raises and what it draws *)




(** The noise step raises on no tensor that the rules have left. *)
Lemma add_noise_total (a : init_args) (g : RandomState) (cm1 : ndarray) :
  apply_rules (mgrid (cm_shape a)) (initial_cm a) (funcs a) = Ok cm1 ->
  exists d, add_noise a g cm1 = Ok d.
Proof.
  intros Er. pose proof (apply_rules_shape _ _ _ _ Er) as [Hs Hl].
  rewrite initial_cm_length in Hl. unfold add_noise.
  apply masked_assign_total;
    rewrite length_map, random_length, Hs, Hl; reflexivity.
Qed.

Lemma init_unfold (self : TargetWeightsTask) (a : init_args)
  (g : RandomState) :
  0 <= noise a /\ noise a <= 1 ->
  __init__ self a g =
    let self2 := mk_task (Some (substrate_shape a)) (Some (max_weight a))
                         (Some (fitnessmeasure a)) (Some (built_locs a))
                         (self_target self) in
    match apply_rules (mgrid (cm_shape a)) (initial_cm a) (funcs a) with
    | Raise e => (self2, g, Raise e)
    | Ok cm1 =>
        let g2 := mk_random (stream g)
                    (pos g + product (shape cm1) + product (shape cm1)) in
        match add_noise a g cm1 with
        | Raise e => (self2, g2, Raise e)
        | Ok d =>
            (mk_task (Some (substrate_shape a)) (Some (max_weight a))
                     (Some (fitnessmeasure a)) (Some (built_locs a))
                     (self_target (built_task a d)),
             g2, Ok tt)
        end
    end.
Proof.
  intros Hn. unfold __init__. apply noise_guard in Hn. rewrite Hn.
  cbn [negb]. reflexivity.
Qed.



(** A constructor that returns has taken from the random state exactly
    two draws per cell of the tensor, whatever the noise, and has set
    every attribute; the stream itself is the same. *)
Theorem init_draws (self0 self : TargetWeightsTask) (a : init_args)
  (g g' : RandomState) :
  __init__ self0 a g = (self, g', Ok tt) ->
  stream g' = stream g /\
  pos g' = (pos g + 2 * product (cm_shape a))%nat /\
  exists d, self = built_task a d.
Proof.
  intros H.
  destruct (Qle_bool 0 (noise a) && Qle_bool (noise a) 1) eqn:En.
  - apply noise_guard in En. rewrite (init_unfold self0 a g En) in H.
    cbv zeta in H.
    destruct (apply_rules (mgrid (cm_shape a)) (initial_cm a) (funcs a))
      as [cm1|e1] eqn:Er; [|discriminate].
    pose proof (apply_rules_shape _ _ _ _ Er) as [Hs _].
    destruct (add_noise a g cm1) as [d|e2]; [|discriminate].
    injection H as <- <-. cbn [stream pos]. rewrite Hs.
    split; [reflexivity|]. split; [cbn [initial_cm shape]; lia|].
    exists d. reflexivity.
  - assert (Hbad : ~ (0 <= noise a /\ noise a <= 1)).
    { intros K. apply noise_guard in K. congruence. }
    rewrite (init_bad_noise self0 a g Hbad) in H. discriminate.
Qed.

Lemma init_draws_witness :
  exists self g',
    __init__ fresh args_2x2 g_half = (self, g', Ok tt) /\
    stream g' = stream g_half /\ pos g' = 32%nat.
Proof.
  assert (H : __init__ fresh args_2x2 g_half
              = (built_task args_2x2 (data (initial_cm args_2x2)),
                 mk_random (stream g_half) 32, Ok tt))
    by (vm_compute; reflexivity).
  eexists. eexists. split; [exact H|].
  destruct (init_draws fresh _ args_2x2 g_half _ H) as (Hs & Hp & _).
  split; [exact Hs|exact Hp].
Defined.

(** ** A rule whose mask or values have the wrong size *)

Lemma apply_rules_sized (a : init_args) (rules : list (where_t * what_t)) :
  forall cm,
    Forall (rule_sized a) rules ->
    shape cm = cm_shape a ->
    length (data cm) = product (cm_shape a) ->
    exists cm1, apply_rules (mgrid (cm_shape a)) cm rules = Ok cm1.
Proof.
  induction rules as [|rule rules IH]; intros cm HF Hs Hl; simpl.
  - eexists. reflexivity.
  - inversion HF as [|? ? Hrule HF']; subst.
    destruct (Hrule cm Hs) as [Hm Hv]. unfold apply_rule.
    destruct (masked_assign_total (data cm) _ _
                (eq_trans Hm (eq_sym Hl)) (eq_trans Hv (eq_sym Hl)))
      as [d Ed].
    rewrite Ed. cbn [bind]. apply IH; [exact HF'|exact Hs|].
    cbn [data]. apply masked_assign_length in Ed. lia.
Qed.



(** ** A noise of 1 *)

Lemma nth_random (n p : nat) (g : RandomState) :
  (p < n)%nat -> nth p (fst (random n g)) 0 = stream g (pos g + p)%nat.
Proof.
  intros Hp. unfold random. cbn [fst].
  rewrite (nth_indep _ 0 ((fun i => stream g (pos g + i)%nat) 0%nat))
    by (rewrite length_map, length_seq; exact Hp).
  rewrite (map_nth (fun i => stream g (pos g + i)%nat)).
  rewrite seq_nth by exact Hp. reflexivity.
Qed.

Lemma nth_map_lt {A B : Type} (f : A -> B) (l : list A) (p : nat)
  (da : A) (db : B) :
  (p < length l)%nat -> nth p (map f l) db = f (nth p l da).
Proof.
  intros Hp. rewrite (nth_indep _ db (f da)) by (rewrite length_map; exact Hp).
  apply map_nth.
Qed.

(** With a noise of 1 every weight of the target is random: the default
    weight and the rules leave no trace, and the entry of cell [p] is
    [u * max_weight * 2 - max_weight] for the draw [u] that the second
    call of [np.random.random] gives the cell. *)
Theorem all_noise_target (a : init_args) (g : RandomState)
  (self : TargetWeightsTask) (target : ndarray) (p : nat) :
  noise a == 1 -> unit_draws g -> 0 <= max_weight a ->
  new_task a g = Ok self -> self_target self = Some target ->
  (p < product (cm_shape a))%nat ->
  nth p (data target) 0
  == stream g (pos g + product (cm_shape a) + p)%nat * max_weight a * 2
     - max_weight a.
Proof.
  intros Hn Hg Hmw Hnew Ht Hp.
  destruct (new_task_inv a g self Hnew) as [_ (cm1 & d & Er & Ed & Hd & ->)].
  cbn [built_task self_target] in Ht. injection Ht as <-. cbn [data].
  pose proof (apply_rules_shape _ _ _ _ Er) as [Hs _].
  cbn [initial_cm shape] in Hs.
  unfold add_noise in Ed. rewrite Hs in Ed.
  apply (masked_assign_nth _ _ _ _ p) in Ed.
  rewrite (nth_map_lt _ _ p 0 false) in Ed by (rewrite random_length; exact Hp).
  rewrite (nth_map_lt _ _ p 0 0) in Ed by (rewrite random_length; exact Hp).
  rewrite !nth_random in Ed by exact Hp.
  change (pos (snd (random (product (cm_shape a)) g)))
    with (pos g + product (cm_shape a))%nat in Ed.
  change (stream (snd (random (product (cm_shape a)) g)))
    with (stream g) in Ed.
  assert (Hm : Qltb (stream g (pos g + p)%nat) (noise a) = true).
  { apply Qltb_lt. rewrite Hn. apply Hg. }
  rewrite Hm in Ed.
  rewrite (nth_map_lt _ _ p 0 0) by (rewrite Hd; exact Hp). rewrite Ed.
  destruct (Hg (pos g + product (cm_shape a) + p)%nat) as [H0 H1].
  set (u := stream g (pos g + product (cm_shape a) + p)%nat) in *.
  clearbody u. apply clip_inside; nra.
Qed.

Lemma all_noise_target_witness :
  exists self target,
    new_task args_all_noise g_half = Ok self /\
    self_target self = Some target /\
    nth 0 (data target) 0 == (1 # 2) * 3 * 2 - 3.
Proof.
  assert (H : new_task args_all_noise g_half
              = Ok (built_task args_all_noise
                      (repeat ((1 # 2) * 3 * 2 - 3) 4)))
    by (vm_compute; reflexivity).
  exists (built_task args_all_noise (repeat ((1 # 2) * 3 * 2 - 3) 4)).
  eexists. split; [exact H|]. split; [reflexivity|].
  assert (Hp : (0 < product (cm_shape args_all_noise))%nat)
    by (vm_compute; lia).
  exact (all_noise_target args_all_noise g_half _ _ 0%nat (Qeq_refl 1)
           g_half_unit ltac:(discriminate) H eq_refl Hp).
Defined.

(** ** The instance that the constructor returns *)

Lemma grid_point_range (s i : nat) :
  (i < s)%nat -> -1 <= grid_point s i /\ grid_point s i <= 1.
Proof.
  intros Hi. unfold grid_point, spacing.
  destruct (Nat.eqb_spec s 1) as [->|Hs].
  - assert (i = 0%nat) by lia. subst i. split; discriminate.
  - assert (Hk : 0 <= inject_Z (Z.of_nat i))
      by (change 0 with (inject_Z 0); rewrite <- Zle_Qle; lia).
    assert (Hkn : inject_Z (Z.of_nat i) <= inject_Z (Z.of_nat (s - 1)))
      by (rewrite <- Zle_Qle; lia).
    assert (Hn : 0 < inject_Z (Z.of_nat (s - 1)))
      by (change 0 with (inject_Z 0); rewrite <- Zlt_Qlt; lia).
    set (k := inject_Z (Z.of_nat i)) in *.
    set (n := inject_Z (Z.of_nat (s - 1))) in *. clearbody k n.
    assert (E : k * ((1 - -1) / n) + -1 == 2 * (k / n) - 1)
      by (field; lra).
    rewrite E.
    assert (H0 : 0 <= k / n)
      by (apply Qle_shift_div_l; [exact Hn|lra]).
    assert (H1 : k / n <= 1)
      by (apply Qle_shift_div_r; [exact Hn|lra]).
    set (q := k / n) in *. clearbody q. split; lra.
Qed.

Lemma mgrid_range (dims : list nat) :
  Forall (Forall (fun v => -1 <= v /\ v <= 1)) (mgrid dims).
Proof.
  induction dims as [|s rest IH]; [constructor|].
  cbn [mgrid]. constructor.
  - apply Forall_flat_map. apply Forall_forall. intros i Hi.
    apply in_seq in Hi. apply Forall_forall. intros v Hv.
    apply repeat_spec in Hv. subst v. apply grid_point_range. lia.
  - apply Forall_map. revert IH. apply Forall_impl. intros c Hc.
    apply Forall_concat. apply Forall_forall. intros c' Hc'.
    apply repeat_spec in Hc'. subst c'. exact Hc.
Qed.

Lemma built_locs_range (a : init_args) :
  Forall (Forall (fun v => -1 <= v /\ v <= 1)) (built_locs a).
Proof.
  unfold built_locs, transpose_reshape. apply Forall_map.
  apply Forall_forall. intros f _. apply Forall_map.
  pose proof (mgrid_range (cm_shape a)) as H. revert H.
  apply Forall_impl. intros c Hc.
  destruct (nth_in_or_default f c 0) as [Hin | Hdef]; [|rewrite Hdef].
  - rewrite Forall_forall in Hc. apply Hc. exact Hin.
  - split; discriminate.
Qed.

(** The instance that the constructor returns holds its three plain
    arguments, a square target with one row and one column per node of
    the substrate, and a location table with one row per weight of the
    target and two columns per dimension of the substrate, whose every
    coordinate lies between -1 and 1. *)
Theorem constructed_instance (a : init_args) (g : RandomState)
  (self : TargetWeightsTask) :
  new_task a g = Ok self ->
  self_substrate_shape self = Some (substrate_shape a) /\
  self_max_weight self = Some (max_weight a) /\
  self_fitnessmeasure self = Some (fitnessmeasure a) /\
  exists locs target,
    self_locs self = Some locs /\ self_target self = Some target /\
    shape target = [product (substrate_shape a); product (substrate_shape a)]
    /\ wf_ndarray target /\
    length locs = length (data target) /\
    Forall (fun r => length r = (2 * length (substrate_shape a))%nat /\
                     Forall (fun v => -1 <= v /\ v <= 1) r) locs.
Proof.
  intros Hnew.
  destruct (new_task_inv a g self Hnew) as [_ (cm1 & d & _ & _ & Hd & ->)].
  repeat (split; [reflexivity|]).
  eexists. eexists. split; [reflexivity|]. split; [reflexivity|].
  cbn [shape data]. split; [reflexivity|].
  assert (Hp : product (cm_shape a)
               = (product (substrate_shape a)
                  * (product (substrate_shape a) * 1))%nat)
    by (unfold cm_shape; rewrite product_app; lia).
  split; [|split].
  - unfold wf_ndarray. cbn [shape data product fold_right].
    rewrite length_map, Hd. exact Hp.
  - rewrite length_map, Hd. apply built_locs_length.
  - pose proof (built_locs_rows a) as Hr.
    pose proof (built_locs_range a) as Hb.
    rewrite Forall_forall in Hr, Hb. apply Forall_forall. intros r Hin.
    split; [|apply Hb; exact Hin].
    rewrite (Hr r Hin). unfold cm_shape. rewrite length_app. lia.
Qed.

Lemma constructed_instance_witness :
  exists self locs target,
    new_task args_2x2 g_half = Ok self /\
    self_locs self = Some locs /\ self_target self = Some target /\
    shape target = [4%nat; 4%nat] /\ length locs = 16%nat /\
    Forall (fun r => length r = 4%nat /\
                     Forall (fun v => -1 <= v /\ v <= 1) r) locs.
Proof.
  pose proof (new_task_2x2 g_half g_half_unit) as H.
  destruct (constructed_instance args_2x2 g_half _ H)
    as (_ & _ & _ & locs & target & Hl & Ht & Hs & _ & Hlen & Hrows).
  exists (built_task args_2x2 (data (initial_cm args_2x2))), locs, target.
  split; [exact H|]. split; [exact Hl|]. split; [exact Ht|].
  split; [exact Hs|]. split; [|exact Hrows].
  rewrite Hlen. cbn [built_task self_target] in Ht. injection Ht as <-.
  reflexivity.
Defined.

(** ** What [evaluate] raises, and in which order *)

(** On a constructed task [evaluate] raises one of three exceptions, and
    never for an attribute that is not set.  A candidate of another shape
    than the target gets the exception with the shape message, whatever
    the substrate and the fitness measure.  Past the shape check, a
    substrate with a dimension of size 1 gives [IndexError], whatever the
    fitness measure.  Past both, a fitness measure that the program does
    not know gives [UnboundLocalError] for [fitness]. *)
Theorem evaluate_raises (a : init_args) (g : RandomState)
  (self : TargetWeightsTask) (target cm : ndarray) :
  Forall (fun s => (1 <= s)%nat) (substrate_shape a) ->
  new_task a g = Ok self ->
  self_target self = Some target ->
  (shape cm <> shape target ->
   evaluate self cm
   = Raise (Exception (shape_message (shape cm) (shape target))))
  /\
  (shape cm = shape target ->
   ~ Forall (fun s => (2 <= s)%nat) (substrate_shape a) ->
   evaluate self cm = Raise IndexError)
  /\
  (shape cm = shape target ->
   Forall (fun s => (2 <= s)%nat) (substrate_shape a) ->
   fitnessmeasure a <> "absdiff"%string ->
   fitnessmeasure a <> "sqerr"%string ->
   evaluate self cm = Raise (UnboundLocalError "fitness")).
Proof.
  intros Hpos Hnew Ht.
  destruct (new_task_inv a g self Hnew) as [_ (cm1 & d & _ & _ & Hd & ->)].
  cbn [built_task self_target] in Ht. injection Ht as <-.
  unfold evaluate.
  cbn [built_task self_target self_locs self_max_weight
       self_fitnessmeasure bind getattr].
  split; [|split].
  - intros Hs. rewrite (shape_eqb_neq _ _ Hs). reflexivity.
  - intros Hs Hsmall. apply shape_eqb_eq in Hs. rewrite Hs. cbn [negb].
    pose proof (lstsq_no_residual (built_locs a)
                  (data (mk_ndarray
                           [product (substrate_shape a);
                            product (substrate_shape a)]
                           (map (clip (- max_weight a) (max_weight a)) d)))
                  (built_locs_deficient a
                     (small_dimension _ Hpos Hsmall))) as Hres.
    destruct (lstsq _ _) as [[x res] rk]. cbn [fst snd] in Hres.
    subst res. reflexivity.
  - intros Hs Hall H1 H2. apply shape_eqb_eq in Hs. rewrite Hs. cbn [negb].
    destruct (built_locs_full_rank a Hall) as [Hrk Hlt].
    destruct (lstsq _ _) as [[x res] rk] eqn:El.
    apply lstsq_residuals in El. destruct El as [-> [_ Hne]].
    destruct res as [|r0 res]; [exfalso; apply (Hne Hrk Hlt); reflexivity|].
    cbn [bind first_item].
    apply String.eqb_neq in H1. apply String.eqb_neq in H2.
    rewrite H1, H2. reflexivity.
Qed.

Lemma evaluate_raises_witness :
  evaluate (built_task args_unknown_mode (data (initial_cm args_unknown_mode)))
    (full 3 1)
  = Raise (Exception (shape_message [3%nat; 3%nat] [4%nat; 4%nat]))
  /\
  evaluate (built_task args_unknown_mode (data (initial_cm args_unknown_mode)))
    (full 4 1)
  = Raise (UnboundLocalError "fitness").
Proof.
  assert (Hnew : new_task args_unknown_mode g_half
                 = Ok (built_task args_unknown_mode
                         (data (initial_cm args_unknown_mode))))
    by (apply new_task_no_rules;
        [reflexivity|reflexivity|exact g_half_unit]).
  assert (Hpos : Forall (fun s => (1 <= s)%nat)
                   (substrate_shape args_unknown_mode))
    by (repeat constructor).
  split.
  - destruct (evaluate_raises args_unknown_mode g_half _ (full 4 1)
                (full 3 1) Hpos Hnew eq_refl) as (H & _).
    apply H. discriminate.
  - destruct (evaluate_raises args_unknown_mode g_half _ (full 4 1)
                (full 4 1) Hpos Hnew eq_refl) as (_ & _ & H).
    apply H; [reflexivity|repeat constructor|discriminate|discriminate].
Defined.

(** ** When the constructor returns *)

(** With rules whose masks and values have the size of the tensor, the
    constructor returns exactly when the noise is in [0, 1]. *)
Theorem constructor_returns_iff (a : init_args) (g : RandomState) :
  Forall (rule_sized a) (funcs a) ->
  (exists self, new_task a g = Ok self) <-> (0 <= noise a /\ noise a <= 1).
Proof.
  intros Hr. split.
  - intros [self Hnew]. apply (new_task_inv a g self Hnew).
  - intros Hn.
    destruct (apply_rules_sized a (funcs a) (initial_cm a) Hr eq_refl
                (initial_cm_length a)) as [cm1 Er].
    destruct (add_noise_total a g cm1 Er) as [d Ed].
    exists (built_task a d). apply (new_task_built a g cm1 d Hn Er Ed).
Qed.

Lemma constructor_returns_iff_witness :
  (exists self, new_task args_noisy g_cycle = Ok self)
  <-> (0 <= noise args_noisy /\ noise args_noisy <= 1).
Proof.
  apply (constructor_returns_iff args_noisy g_cycle).
  constructor; [apply rule_sized_plain|constructor].
Defined.

(** ** Candidates within the range of the weights *)

Lemma mean_le_const (c : Q) (l : list Q) :
  l <> [] -> Forall (fun v => v <= c) l -> mean l <= c.
Proof.
  intros Hne H. unfold mean.
  apply Qle_shift_div_r; [apply Qlen_pos; exact Hne|].
  clear Hne. induction H as [|v l Hv _ IH].
  - change (0 <= c * 0). lra.
  - cbv beta in Hv. rewrite Qsum_cons. unfold Qlen in *. simpl length.
    rewrite Nat2Z.inj_succ, <- Z.add_1_r, inject_Z_plus.
    change (inject_Z 1) with 1.
    set (n := inject_Z (Z.of_nat (length l))) in *. clearbody n. lra.
Qed.

Lemma sub_abs_bound (w : Q) (u : list Q) :
  forall v,
    Forall (fun x => - w <= x /\ x <= w) u ->
    Forall (fun x => - w <= x /\ x <= w) v ->
    Forall (fun x => x <= 2 * w) (map Qabs (sub u v)).
Proof.
  induction u as [|a u IH]; intros [|b v] Hu Hv; try constructor.
  - apply Forall_cons_iff in Hu. apply Forall_cons_iff in Hv.
    destruct Hu as [[Ha1 Ha2] _]. destruct Hv as [[Hb1 Hb2] _].
    rewrite Qred_correct. apply Qabs_Qle_condition. cbn [fst snd].
    split; lra.
  - apply Forall_cons_iff in Hu. apply Forall_cons_iff in Hv.
    apply IH; tauto.
Qed.

(** In the mode [absdiff], with a maximal weight that is not negative, a
    candidate whose weights all lie between [-max_weight] and
    [max_weight] has a fitness of 1 or more. *)
Theorem absdiff_fitness_at_least_1 (a : init_args) (g : RandomState)
  (self : TargetWeightsTask) (cm : ndarray) (m : metrics) :
  0 <= max_weight a ->
  new_task a g = Ok self ->
  fitnessmeasure a = "absdiff"%string ->
  wf_ndarray cm ->
  Forall (fun v => - max_weight a <= v /\ v <= max_weight a) (data cm) ->
  evaluate self cm = Ok m ->
  (1 <= fitness m)%R.
Proof.
  intros Hmw Hnew Hmode Hwf Hin Em.
  rewrite (evaluate_absdiff_fitness a g self cm m Hnew Hmode Hwf Em).
  destruct (new_task_inv a g self Hnew) as [_ (cm1 & d & _ & _ & Hd & ->)].
  pose proof (diffs_nonempty a d cm m Hd Hwf Em) as Hne.
  destruct (evaluate_Ok_inv _ _ _ Em)
    as (t & l & mw & fm & Et & _ & _ & _ & _ & _ & _ & _ & Hdiff & _).
  cbn [built_task self_target] in Et. injection Et as <-.
  cbn [data] in Hdiff.
  assert (Hle : diff m <= 2 * max_weight a).
  { rewrite Hdiff. apply mean_le_const; [exact Hne|].
    apply sub_abs_bound; [exact Hin|].
    apply Forall_map. apply Forall_forall. intros v _.
    apply clip_bounds. lra. }
  rewrite <- (Rpower_O 2) by lra.
  apply Rle_Rpower; [lra|].
  replace 0%R with (Q2R 0) by (unfold Q2R; simpl; lra).
  apply Qle_Rle. lra.
Qed.

Lemma absdiff_fitness_at_least_1_witness :
  exists m,
    evaluate (built_task args_2x2 (data (initial_cm args_2x2))) (full 4 0)
    = Ok m /\ (1 <= fitness m)%R.
Proof.
  destruct (evaluate_2x2_returns (full 4 0) eq_refl) as [m Em].
  exists m. split; [exact Em|].
  apply (absdiff_fitness_at_least_1 args_2x2 g_half
           (built_task args_2x2 (data (initial_cm args_2x2))) (full 4 0) m).
  - discriminate.
  - exact (new_task_2x2 g_half g_half_unit).
  - reflexivity.
  - exact (wf_full 4 0).
  - repeat constructor; discriminate.
  - exact Em.
Defined.
